(** * anytree: parent/child linkage, resolver and walker

    A shallow embedding of [anytree/__init__.py].  Python objects are
    identified by their reference (a natural number), the attributes the
    library reads and writes live in a heap of finite maps, and every
    method is a function in a small state-and-exception monad over that
    heap.  Loops whose termination depends on the heap ([_path],
    [PreOrderIter]) take fuel; running out of fuel is the outcome
    [Diverges].  Nodes are plain objects: they are truthy, [in] and
    [!=] on them compare references, and [assert] statements are
    executed. *)

From Stdlib Require Import Ascii String.
From stdpp Require Import gmap strings list fin_maps.

(** ** Objects, exceptions and the heap *)

(** A node is a Python object; [is] and the default [==] compare
    references. *)
Definition node := nat.

(** The notification slots [_pre_detach], [_post_detach], [_pre_attach]
    and [_post_attach].  Their default bodies are [pass]; a call is
    recorded so that "no hook fires" can be stated. *)
Inductive hook :=
| PreDetach (self parent : node)
| PostDetach (self parent : node)
| PreAttach (self parent : node)
| PostAttach (self parent : node).

(** The two messages [Resolver.__start] formats. *)
Inductive start_msg :=
| RootMissing (rootpart : string)
| UnknownRoot (part rootpart : string).

Inductive exn :=
| LoopError
| AssertionError
| AttributeError
| IndexError
| WalkError
| ResolverError (n : node) (child : string) (msg : start_msg)
| ChildResolverError (n : node) (child : string) (children : list string).

(** [except ResolverError]: [ChildResolverError] is a subclass. *)
Definition is_ResolverError (e : exn) : bool :=
  match e with
  | ResolverError _ _ _ | ChildResolverError _ _ _ => true
  | _ => false
  end.

(** A compiled pattern, as far as [Resolver.__translate] can produce
    one: a sequence of [.*], [.] and escaped characters, closed by
    [\Z(?ms)]. *)
Inductive re_item :=
| ReStar
| ReDot
| ReChar (c : ascii).

Record heap := Heap {
  (** the attribute [_parent] of every object that has it *)
  _parent : gmap node (option node);
  (** the list behind [_children] of every object that has it *)
  __children : gmap node (list node);
  (** the class attribute [Resolver._match_cache] *)
  _match_cache : gmap string (list re_item);
  (** the notification slots called so far, oldest first *)
  hooks : list hook
}.

Definition empty_heap : heap := Heap ∅ ∅ ∅ [].

Inductive outcome (A : Type) :=
| Returns (a : A)
| Raises (e : exn)
| Diverges.
Arguments Returns {A} a.
Arguments Raises {A} e.
Arguments Diverges {A}.

(** ** The monad of methods *)

Definition M (A : Type) : Type := heap → outcome A * heap.

Definition ret {A} (a : A) : M A := λ h, (Returns a, h).
Definition raise {A} (e : exn) : M A := λ h, (Raises e, h).
Definition bind {A B} (m : M A) (k : A → M B) : M B := λ h,
  match m h with
  | (Returns a, h') => k a h'
  | (Raises e, h') => (Raises e, h')
  | (Diverges, h') => (Diverges, h')
  end.

#[global] Instance M_ret : MRet M := @ret.
#[global] Instance M_bind : MBind M := λ A B k m, bind m k.

(** [assert b, "Tree internal data is corrupt."] *)
Definition assert (b : bool) : M unit :=
  if b then ret () else raise AssertionError.

(** ** NodeMixin *)

(** [NodeMixin.parent] (getter): [None] when the attribute is missing. *)
Definition parent (h : heap) (self : node) : option node :=
  default None (_parent h !! self).

(** [NodeMixin._children]: the list, [[]] when it was never created. *)
Definition _children (h : heap) (self : node) : list node :=
  default [] (__children h !! self).

(** [NodeMixin.children]: a tuple copy of the list. *)
Definition children (h : heap) (self : node) : list node := _children h self.

Definition is_root (h : heap) (self : node) : bool :=
  bool_decide (parent h self = None).

(** [list.remove]: drops the first occurrence.  Both call sites are
    guarded by [assert self in parentchildren], so the [ValueError] of
    an absent element cannot arise. *)
Fixpoint list_remove_first (x : node) (l : list node) : list node :=
  match l with
  | [] => []
  | y :: l' => if decide (y = x) then l' else y :: list_remove_first x l'
  end.

Definition call_hook (ev : hook) : M unit := λ h,
  (Returns (), Heap (_parent h) (__children h) (_match_cache h) (hooks h ++ [ev])).

Definition store_children (p : node) (l : list node) : M unit := λ h,
  (Returns (), Heap (_parent h) (<[p := l]> (__children h)) (_match_cache h) (hooks h)).

Definition store_parent (self : node) (value : option node) : M unit := λ h,
  (Returns (), Heap (<[self := value]> (_parent h)) (__children h) (_match_cache h) (hooks h)).

Definition read {A} (f : heap → A) : M A := λ h, (Returns (f h), h).

(** The [while node:] loop of [NodeMixin._path]; [path.insert(0, node)]
    is the cons. *)
Fixpoint path_loop (fuel : nat) (h : heap) (nd : option node) (path : list node)
  : option (list node) :=
  match nd with
  | None => Some path
  | Some n =>
      match fuel with
      | 0 => None
      | S fuel' => path_loop fuel' h (parent h n) (n :: path)
      end
  end.

Definition _path (fuel : nat) (h : heap) (self : node) : option (list node) :=
  path_loop fuel h (Some self) [].

(** [NodeMixin.path] as a method. *)
Definition path (fuel : nat) (self : node) : M (list node) := λ h,
  match _path fuel h self with
  | Some p => (Returns p, h)
  | None => (Diverges, h)
  end.

(** [NodeMixin.root] *)
Definition root (fuel : nat) (self : node) : M node :=
  p ← read (λ h, parent h self);
  match p with
  | Some _ =>
      pth ← path fuel self;
      match pth with
      | r :: _ => mret r
      | [] => raise IndexError
      end
  | None => mret self
  end.

(** [PreOrderIter.__iter__], the yielded nodes collected in a list:
    [stack = node.children + stack[1:]]. *)
Fixpoint preorder (fuel : nat) (h : heap) (stack : list node)
  : option (list node) :=
  match stack with
  | [] => Some []
  | n :: stack' =>
      match fuel with
      | 0 => None
      | S fuel' => (n ::.) <$> preorder fuel' h (children h n ++ stack')
      end
  end.

(** [NodeMixin.descendants]: [tuple(PreOrderIter(self))[1:]] *)
Definition descendants (fuel : nat) (h : heap) (self : node)
  : option (list node) :=
  tail <$> preorder fuel h [self].

(** The unregistering block, identical in both branches of the setter. *)
Definition detach (self p : node) : M unit :=
  call_hook (PreDetach self p);;
  parentchildren ← read (λ h, _children h p);
  assert (bool_decide (self ∈ parentchildren));;
  store_children p (list_remove_first self parentchildren);;
  call_hook (PostDetach self p).

Definition attach (self value : node) : M unit :=
  call_hook (PreAttach self value);;
  parentchildren ← read (λ h, _children h value);
  assert (bool_decide (self ∉ parentchildren));;
  store_children value (parentchildren ++ [self]);;
  call_hook (PostAttach self value).

(** [NodeMixin.parent] (setter), lines 200-242. *)
Definition set_parent (fuel : nat) (self : node) (value : option node) : M unit :=
  parent ← read (λ h, parent h self);
  match value with
  | None =>
      match parent with
      | Some p => detach self p
      | None => mret ()
      end
  | Some v =>
      if bool_decide (parent ≠ Some v) then
        match parent with
        | Some p => detach self p
        | None => mret ()
        end;;
        (if bool_decide (v = self) then raise LoopError else mret ());;
        vpath ← path fuel v;
        (if bool_decide (self ∈ vpath) then raise LoopError else mret ());;
        attach self v
      else mret ()
  end;;
  store_parent self value.

(** The heap after a method call, and the outcome of the call. *)
Definition run {A} (m : M A) (h : heap) : heap := (m h).2.
Definition result {A} (m : M A) (h : heap) : outcome A := (m h).1.

(** ** Walker *)

(** [s[lo:hi]] for [0 <= lo], [0 <= hi]. *)
Definition slice {A} (lo hi : nat) (l : list A) : list A :=
  drop lo (take hi l).

(** [c[-1]] *)
Definition last_item {A} (l : list A) : M A :=
  match last l with
  | Some x => mret x
  | None => raise IndexError
  end.

(** [c[0]] *)
Definition first_item {A} (l : list A) : M A :=
  match l with
  | x :: _ => mret x
  | [] => raise IndexError
  end.

(** [tuple([si for si, ei in zip(s, e) if si is ei])] *)
Definition common (s e : list node) : list node :=
  (filter (λ p : node * node, p.1 = p.2) (zip s e)).*1.

(** [Walker.walk], lines 805-824.  [cs = len(c) - 1] is computed after
    [c[0]] has been read, so [c] is not empty and the difference is a
    natural number; [s[cs:-1]] ends at [len(s) - 1]. *)
Definition walk (fuel : nat) (start end_ : node) : M (list node * list node) :=
  s ← path fuel start;
  e ← path fuel end_;
  rs ← root fuel start;
  re ← root fuel end_;
  (if bool_decide (rs ≠ re) then raise WalkError else mret ());;
  let c := common s e in
  c0 ← first_item c;
  rs' ← root fuel start;
  assert (bool_decide (c0 = rs'));;
  let cs := length c - 1 in
  cl ← last_item c;
  let up := if bool_decide (start = cl) then []
            else reverse (slice cs (length s - 1) s) in
  cl' ← last_item c;
  let down := if bool_decide (end_ = cl') then []
              else drop (cs + 1) e in
  mret (up, down).

(** ** Resolver *)

Definition _MAXCACHE : nat := 20.

(** [str.split("/")] *)
Fixpoint split_slash (s : string) : list string :=
  match s with
  | EmptyString => [EmptyString]
  | String c s' =>
      if Ascii.eqb c "/" then EmptyString :: split_slash s'
      else match split_slash s' with
           | x :: xs => String c x :: xs
           | [] => [String c EmptyString]
           end
  end.

(** [str.startswith("/")] *)
Definition startswith_slash (s : string) : bool :=
  match s with
  | String c _ => Ascii.eqb c "/"
  | EmptyString => false
  end.

(** [c in pat] *)
Fixpoint contains_char (c : ascii) (pat : string) : bool :=
  match pat with
  | EmptyString => false
  | String c' pat' => Ascii.eqb c' c || contains_char c pat'
  end.

(** [Resolver.__is_wildcard] *)
Definition __is_wildcard (pat : string) : bool :=
  contains_char "?" pat || contains_char "*" pat.

(** [Resolver.__translate]: [*] becomes [.*], [?] becomes [.], any
    other character its escaped self; the closing [\Z(?ms)] is the end
    anchor and the DOTALL flag, both built into [re_match]. *)
Fixpoint __translate (pat : string) : list re_item :=
  match pat with
  | EmptyString => []
  | String c pat' =>
      (if Ascii.eqb c "*" then ReStar
       else if Ascii.eqb c "?" then ReDot
       else ReChar c) :: __translate pat'
  end.

(** [re_pat.match(name) is not None] for a pattern of [__translate]:
    the match starts at the first character, [\Z] demands that it ends
    at the end of the string, and under [(?s)] the dot matches every
    character.  Greedy backtracking finds a match whenever one exists,
    so the boolean is the existence of a match. *)
Fixpoint re_match (re : list re_item) (name : string) : bool :=
  match re with
  | [] => match name with EmptyString => true | _ => false end
  | ReChar c :: re' =>
      match name with
      | String c' name' => Ascii.eqb c c' && re_match re' name'
      | EmptyString => false
      end
  | ReDot :: re' =>
      match name with
      | String _ name' => re_match re' name'
      | EmptyString => false
      end
  | ReStar :: re' =>
      (fix star (name : string) : bool :=
         re_match re' name ||
         match name with
         | String _ name' => star name'
         | EmptyString => false
         end) name
  end.

Definition store_cache (c : gmap string (list re_item)) : M unit := λ h,
  (Returns (), Heap (_parent h) (__children h) c (hooks h)).

(** [Resolver.__match] *)
Definition __match (name pat : string) : M bool :=
  cache ← read _match_cache;
  re_pat ← match cache !! pat with
           | Some re_pat => mret re_pat
           | None =>
               let res := __translate pat in
               cache' ← (if bool_decide (_MAXCACHE ≤ size cache)
                         then store_cache ∅;; mret ∅
                         else mret cache);
               store_cache (<[pat := res]> cache');;
               mret res
           end;
  mret (re_match re_pat name).

(** [OrderedDict(items)]: a key met again keeps its place and takes the
    new value. *)
Fixpoint od_set (k : string) (v : node) (d : list (string * node))
  : list (string * node) :=
  match d with
  | [] => [(k, v)]
  | (k', v') :: d' =>
      if String.eqb k' k then (k, v) :: d' else (k', v') :: od_set k v d'
  end.

Definition OrderedDict (items : list (string * node)) : list (string * node) :=
  foldl (λ d kv, od_set kv.1 kv.2 d) [] items.

(** [nodemap[part]] *)
Fixpoint od_get (k : string) (d : list (string * node)) : option node :=
  match d with
  | [] => None
  | (k', v) :: d' => if String.eqb k' k then Some v else od_get k d'
  end.

(** [part in ("", ".")] *)
Definition is_here (part : string) : bool :=
  String.eqb part "" || String.eqb part ".".

Section Resolver.

(** [Resolver.__get_part]: the value of [getattr(node, self.pathattr)].
    Nodes carry the attribute, with a string value. *)
Variable __get_part : node → string.

(** [Resolver.__get_nodemap]; [node] may be Python's [None], whose
    [children] is missing. *)
Definition __get_nodemap (nd : option node) : M (list (string * node)) :=
  match nd with
  | None => raise AttributeError
  | Some n =>
      cs ← read (λ h, children h n);
      mret (OrderedDict ((λ child, (__get_part child, child)) <$> cs))
  end.

(** [node.parent] where [node] may be [None]. *)
Definition parent_of (nd : option node) : M (option node) :=
  match nd with
  | None => raise AttributeError
  | Some n => read (λ h, parent h n)
  end.

(** [Resolver.__start] *)
Definition __start (fuel : nat) (n : node) (path : string)
  : M (node * list string) :=
  let parts := split_slash path in
  if startswith_slash path then
    n ← root fuel n;
    let rootpart := __get_part n in
    let parts := tail parts in
    p0 ← first_item parts;
    (if bool_decide (p0 = EmptyString)
     then raise (ResolverError n EmptyString (RootMissing rootpart))
     else if bool_decide (p0 ≠ rootpart)
     then raise (ResolverError n EmptyString (UnknownRoot p0 rootpart))
     else mret ());;
    mret (n, tail parts)
  else mret (n, parts).

(** The [for part in parts] loop of [Resolver.get]. *)
Fixpoint get_loop (nd : option node) (parts : list string) : M (option node) :=
  match parts with
  | [] => mret nd
  | part :: parts' =>
      if String.eqb part ".." then
        nd' ← parent_of nd;
        get_loop nd' parts'
      else if is_here part then
        get_loop nd parts'
      else
        nodemap ← __get_nodemap nd;
        match od_get part nodemap with
        | Some child => get_loop (Some child) parts'
        | None =>
            match nd with
            | Some n => raise (ChildResolverError n part nodemap.*1)
            | None => raise AttributeError
            end
        end
  end.

(** [Resolver.get] *)
Definition get (fuel : nat) (n : node) (path : string) : M (option node) :=
  '(n, parts) ← __start fuel n path;
  get_loop (Some n) parts.

(** [try: body except ResolverError as exc: handler exc] *)
Definition try_except_ResolverError {A} (body : M A) (handler : exn → M A) : M A :=
  λ h,
    match body h with
    | (Raises e, h') =>
        if is_ResolverError e then handler e h' else (Raises e, h')
    | r => r
    end.

Section GlobLoop.
(** [self.__glob(child, remainparts)] *)
Variable glob_child : node → M (list node).
Variables (part : string) (remainparts : list string).

(** The [for name, child in nodemap.items()] loop of
    [Resolver.__glob]. *)
Fixpoint glob_loop (items : list (string * node)) (matches : list node)
  : M (list node) :=
  match items with
  | [] => mret matches
  | (name, child) :: items' =>
      matches' ←
        try_except_ResolverError
          (b ← __match name part;
           if b : bool then
             match remainparts return M (list node) with
             | _ :: _ =>
                 found ← glob_child child;
                 mret (matches ++ found)
             | [] => mret (matches ++ [child])
             end
           else mret matches)
          (λ exc, if negb (__is_wildcard part) then raise exc
                  else mret matches);
      glob_loop items' matches'
  end.
End GlobLoop.

(** [Resolver.__glob] *)
Fixpoint __glob (nd : option node) (parts : list string) : M (list node) :=
  match parts with
  | [] => raise IndexError
  | part :: remainparts =>
      if String.eqb part ".." then
        nd' ← parent_of nd;
        found ← __glob nd' remainparts;
        mret ([] ++ found)
      else if is_here part then
        found ← __glob nd remainparts;
        mret ([] ++ found)
      else
        nodemap ← __get_nodemap nd;
        matches ← glob_loop (λ child, __glob (Some child) remainparts)
                            part remainparts nodemap [];
        (if bool_decide (matches = []) && negb (__is_wildcard part)
         then match nd with
              | Some n => raise (ChildResolverError n part nodemap.*1)
              | None => raise AttributeError
              end
         else mret ());;
        mret ([] ++ matches)
  end.

(** [Resolver.glob] *)
Definition glob (fuel : nat) (n : node) (path : string) : M (list node) :=
  '(n, parts) ← __start fuel n path;
  __glob (Some n) parts.

End Resolver.

(** ** Invariants of the heap *)

(** The root-to-self sequence of a node, as a relation: what [_path]
    computes when its loop ends. *)
Inductive Path (h : heap) : node → list node → Prop :=
| Path_root n : parent h n = None → Path h n [n]
| Path_step n p l : parent h n = Some p → Path h p l → Path h n (l ++ [n]).

(** Invariant 3 of the data model: following [parent] ends at a root. *)
Definition acyclic (h : heap) : Prop := ∀ n, ∃ l, Path h n l.

(** Invariant 1, one direction: a node is in the children of its
    parent. *)
Definition registered (h : heap) : Prop :=
  ∀ n p, parent h n = Some p → n ∈ _children h p.

(** Invariant 1, the other direction: a child points to its parent. *)
Definition owned (h : heap) : Prop :=
  ∀ n p, n ∈ _children h p → parent h n = Some p.

(** Invariant 2: no node twice in one children list. *)
Definition once (h : heap) : Prop := ∀ p, NoDup (_children h p).

Record wf (h : heap) : Prop := Wf {
  wf_acyclic : acyclic h;
  wf_registered : registered h;
  wf_owned : owned h;
  wf_once : once h
}.

(** An executable check of [wf] over the finitely many objects that
    have attributes. *)
Definition acyclic_check (h : heap) : bool :=
  forallb (λ nv : node * option node,
             bool_decide (is_Some (_path (S (size (_parent h))) h nv.1)))
          (map_to_list (_parent h)).

Definition registered_check (h : heap) : bool :=
  forallb (λ nv : node * option node,
             match nv.2 with
             | Some p => bool_decide (nv.1 ∈ _children h p)
             | None => true
             end)
          (map_to_list (_parent h)).

Definition owned_check (h : heap) : bool :=
  forallb (λ pl : node * list node,
             forallb (λ n, bool_decide (parent h n = Some pl.1)) pl.2)
          (map_to_list (__children h)).

Definition once_check (h : heap) : bool :=
  forallb (λ pl : node * list node, bool_decide (NoDup pl.2))
          (map_to_list (__children h)).

Definition wf_check (h : heap) : bool :=
  acyclic_check h && registered_check h && owned_check h && once_check h.

(** The pattern cache only ever holds what [__translate] returns. *)
Definition cache_ok (h : heap) : Prop :=
  ∀ pat re_pat, _match_cache h !! pat = Some re_pat → re_pat = __translate pat.

(** ** Example trees *)

(** [Node(name, parent=p)] for each pair, in order. *)
Definition build (l : list (node * option node)) : heap :=
  foldl (λ (h : heap) (np : node * option node),
           run (set_parent (length l) np.1 np.2) h)
        empty_heap l.

(** The tree of the [Walker] docstring:
    f=1, b=2, a=3, d=4, c=5, e=6, g=7, i=8, h=9. *)
Definition walker_tree : heap :=
  build [(1, None); (2, Some 1); (3, Some 2); (4, Some 2); (5, Some 4);
         (6, Some 4); (7, Some 1); (8, Some 7); (9, Some 8)].

(** The tree of the [Resolver.glob] docstring:
    top=1, sub0=2, sub0sub0=3, sub0sub1=4, sub1=5, sub1sub0=6. *)
Definition resolver_tree : heap :=
  build [(1, None); (2, Some 1); (3, Some 2); (4, Some 2); (5, Some 1);
         (6, Some 5)].

Definition resolver_name (n : node) : string :=
  match n with
  | 1 => "top"
  | 2 | 3 | 6 => "sub0"
  | 4 | 5 => "sub1"
  | _ => ""
  end.

(** [udo = Node("Udo"); marc = Node("Marc", parent=udo);
    lian = Node("Lian", parent=marc)]: udo=1, marc=2, lian=3. *)
Definition udo_tree : heap :=
  build [(1, None); (2, Some 1); (3, Some 2)].

(** [dan = Node("Dan"); jet = Node("Jet", parent=dan);
    jan = Node("Jan", parent=dan); joe = Node("Joe", parent=dan)]:
    dan=1, jet=2, jan=3, joe=4. *)
Definition dan_tree : heap :=
  build [(1, None); (2, Some 1); (3, Some 1); (4, Some 1)].

(** A tree whose top node has one child with a slash in its name:
    [top = Node("top"); Node("a/b", parent=top)], top=1, the child=2. *)
Definition slash_tree : heap := build [(1, None); (2, Some 1)].

Definition slash_name (n : node) : string :=
  match n with
  | 1 => "top"
  | _ => "a/b"
  end.

(** ** Globbing without the pattern cache *)

(** The heap with the pattern cache emptied. *)
Definition forget_cache (h : heap) : heap :=
  Heap (_parent h) (__children h) ∅ (hooks h).

Section GlobPure.

Variable __get_part : node → string.

(** What [__get_nodemap] returns for a node. *)
Definition nodemap (h : heap) (n : node) : list (string * node) :=
  OrderedDict ((λ child, (__get_part child, child)) <$> children h n).

Section LoopPure.
Variable glob_child : node → outcome (list node).
Variables (part : string) (remainparts : list string).

(** [glob_loop], with the outcome of [__match] read off the
    translation of the pattern. *)
Fixpoint glob_loop_pure (items : list (string * node)) (matches : list node)
  : outcome (list node) :=
  match items with
  | [] => Returns matches
  | (name, child) :: items' =>
      if re_match (__translate part) name then
        match remainparts with
        | _ :: _ =>
            match glob_child child with
            | Returns found => glob_loop_pure items' (matches ++ found)
            | Raises e =>
                if is_ResolverError e then
                  if negb (__is_wildcard part) then Raises e
                  else glob_loop_pure items' matches
                else Raises e
            | Diverges => Diverges
            end
        | [] => glob_loop_pure items' (matches ++ [child])
        end
      else glob_loop_pure items' matches
  end.
End LoopPure.

(** [__glob] as a function of the tree alone. *)
Fixpoint glob_pure (h : heap) (nd : option node) (parts : list string)
  : outcome (list node) :=
  match parts with
  | [] => Raises IndexError
  | part :: remainparts =>
      if String.eqb part ".." then
        match nd with
        | Some n => glob_pure h (parent h n) remainparts
        | None => Raises AttributeError
        end
      else if is_here part then
        glob_pure h nd remainparts
      else
        match nd with
        | Some n =>
            match glob_loop_pure (λ child, glob_pure h (Some child) remainparts)
                                 part remainparts (nodemap h n) [] with
            | Returns matches =>
                if bool_decide (matches = []) && negb (__is_wildcard part)
                then Raises (ChildResolverError n part (nodemap h n).*1)
                else Returns matches
            | o => o
            end
        | None => Raises AttributeError
        end
  end.

(** The loop of [Resolver.get] as a function of the tree alone. *)
Fixpoint get_pure (h : heap) (nd : option node) (parts : list string)
  : outcome (option node) :=
  match parts with
  | [] => Returns nd
  | part :: parts' =>
      if String.eqb part ".." then
        match nd with
        | Some n => get_pure h (parent h n) parts'
        | None => Raises AttributeError
        end
      else if is_here part then
        get_pure h nd parts'
      else
        match nd with
        | Some n =>
            match od_get part (nodemap h n) with
            | Some child => get_pure h (Some child) parts'
            | None => Raises (ChildResolverError n part (nodemap h n).*1)
            end
        | None => Raises AttributeError
        end
  end.

End GlobPure.

(** ** More of NodeMixin *)

(** [NodeMixin.anchestors]: [self._path[:-1]] *)
Definition anchestors (fuel : nat) (h : heap) (self : node) : option (list node) :=
  (λ p, take (length p - 1) p) <$> _path fuel h self.

(** [NodeMixin.siblings] *)
Definition siblings (h : heap) (self : node) : list node :=
  match parent h self with
  | None => []
  | Some p => filter (λ node, node ≠ self) (_children h p)
  end.

(** [NodeMixin.is_leaf] *)
Definition is_leaf (h : heap) (self : node) : bool :=
  bool_decide (length (_children h self) = 0).

(** [NodeMixin.depth]: [len(self._path) - 1]; a path holds at least the
    node itself. *)
Definition depth (fuel : nat) (h : heap) (self : node) : option nat :=
  (λ p, length p - 1) <$> _path fuel h self.

(** [NodeMixin.height]; the fuel bounds the depth of the recursion. *)
Fixpoint height (fuel : nat) (h : heap) (self : node) : option nat :=
  match _children h self with
  | [] => Some 0
  | child :: others =>
      match fuel with
      | 0 => None
      | S fuel' =>
          (λ hs, max_list hs + 1) <$> mapM (height fuel' h) (child :: others)
      end
  end.

(** ** PostOrderIter *)

(** [PostOrderIter.__next], the yielded nodes collected in a list; the
    fuel bounds the depth of the recursion. *)
Fixpoint postorder_next (fuel : nat) (h : heap) (nodes : list node)
  : option (list node) :=
  match nodes with
  | [] => Some []
  | _ :: _ =>
      match fuel with
      | 0 => None
      | S fuel' =>
          (λ found, concat found) <$>
            mapM (λ child,
                    (λ grandchildren, grandchildren ++ [child]) <$>
                      postorder_next fuel' h (children h child))
                 nodes
      end
  end.

(** [PostOrderIter.__iter__] *)
Definition postorder (fuel : nat) (h : heap) (self : node) : option (list node) :=
  postorder_next fuel h [self].

(** ** RenderTree *)

(** Rendered text: a sequence of Unicode code points. *)
Definition text := list N.

Record style := Style {
  vertical : text;
  cont : text;
  end_ : text
}.

(** [AbstractStyle.__init__]: the three signs need to have equal length
    (otherwise: [AssertionError]). *)
Definition AbstractStyle (vertical cont end_ : text) : option style :=
  if bool_decide (length cont = length vertical ∧ length cont = length end_)
  then Some (Style vertical cont end_) else None.

(** [AbstractStyle.empty]: [' ' * len(self.end)] *)
Definition empty (s : style) : text := replicate (length (end_ s)) 32%N.

(** [u'|   ', u'|-- ', u'+-- '] *)
Definition AsciiStyle : option style :=
  AbstractStyle [124; 32; 32; 32]%N [124; 45; 45; 32]%N [43; 45; 45; 32]%N.

Definition ContStyle : option style :=
  AbstractStyle [9474; 32; 32; 32]%N [9500; 9472; 9472; 32]%N
                [9492; 9472; 9472; 32]%N.

Definition ContRoundStyle : option style :=
  AbstractStyle [9474; 32; 32; 32]%N [9500; 9472; 9472; 32]%N
                [9584; 9472; 9472; 32]%N.

Definition DoubleStyle : option style :=
  AbstractStyle [9553; 32; 32; 32]%N [9568; 9552; 9552; 32]%N
                [9562; 9552; 9552; 32]%N.

(** [''.join([style.vertical if cont else style.empty for cont in cs])] *)
Definition indent_of (s : style) (cs : list bool) : text :=
  concat ((λ c : bool, if c then vertical s else empty s) <$> cs).

(** The row [RenderTree.__next] yields for [node] itself. *)
Definition render_item (s : style) (self : node) (continues : list bool)
  : text * text * node :=
  match last continues with
  | None => ([], [], self)
  | Some c =>
      let indent := indent_of s (take (length continues - 1) continues) in
      let branch := if c : bool then cont s else end_ s in
      (indent ++ branch, indent_of s continues, self)
  end.

(** [RenderTree.__next], the yielded rows collected in a list;
    [childiter] is the child iterator of the [RenderTree] and the fuel
    bounds the depth of the recursion. *)
Fixpoint render_next (fuel : nat) (s : style) (childiter : list node → list node)
    (h : heap) (self : node) (continues : list bool)
  : option (list (text * text * node)) :=
  match fuel with
  | 0 => None
  | S fuel' =>
      let cs := children h self in
      let lastidx := length cs - 1 in
      (λ rows, render_item s self continues :: concat rows) <$>
        (match cs with
         | [] => Some []
         | _ :: _ =>
             mapM (λ ic : nat * node,
                     render_next fuel' s childiter h ic.2
                       (continues ++ [bool_decide (ic.1 ≠ lastidx)]))
                  (imap (λ idx child, (idx, child)) (childiter cs))
         end)
  end.

(** [RenderTree.__iter__] *)
Definition render (fuel : nat) (s : style) (childiter : list node → list node)
    (h : heap) (self : node) : option (list (text * text * node)) :=
  render_next fuel s childiter h self [].

(** ** Node.__repr__ *)

(** ["/".join(parts)] *)
Fixpoint join_slash (parts : list string) : string :=
  match parts with
  | [] => EmptyString
  | [p] => p
  | p :: parts' => p +:+ "/" +:+ join_slash parts'
  end.

Section Repr.

(** [str(node.name)] *)
Variable name : node → string.

(** The first argument of [Node.__repr__]:
    ["/".join([""] + [str(node.name) for node in self.path])] *)
Definition path_string (fuel : nat) (h : heap) (self : node) : option string :=
  (λ p, join_slash (EmptyString :: (name <$> p))) <$> _path fuel h self.

End Repr.

(** ** Reading the heap as a tree *)

(** The recursive pre-order of the subtree below a node. *)
Fixpoint subtree (fuel : nat) (h : heap) (self : node) : option (list node) :=
  match fuel with
  | 0 => None
  | S fuel' => (λ ls, self :: concat ls) <$> mapM (subtree fuel' h) (children h self)
  end.

(** A pattern matches a name: [*] stands for any run of characters,
    [?] for any one character, every other character for itself. *)
Inductive wild_match : string → string → Prop :=
| wild_nil : wild_match EmptyString EmptyString
| wild_star pat skipped name :
    wild_match pat name →
    wild_match (String "*" pat) (skipped +:+ name)
| wild_one pat c name :
    wild_match pat name → wild_match (String "?" pat) (String c name)
| wild_char c pat name :
    c ≠ "*"%char → c ≠ "?"%char →
    wild_match pat name → wild_match (String c pat) (String c name).

(** ** The monad and the heap primitives *)

Ltac munfold :=
  unfold result, run, mbind, mret, M_bind, M_ret, bind, ret, raise,
    read, assert, call_hook, store_children, store_parent, store_cache in *.

Lemma parent_store_eq h self v :
  parent (Heap (<[self := v]> (_parent h)) (__children h) (_match_cache h) (hooks h)) self = v.
Proof. unfold parent; simpl. by rewrite lookup_insert_eq. Qed.

Lemma parent_store_ne h self v n :
  n ≠ self →
  parent (Heap (<[self := v]> (_parent h)) (__children h) (_match_cache h) (hooks h)) n
  = parent h n.
Proof. intros ?. unfold parent; simpl. by rewrite lookup_insert_ne. Qed.

Lemma parent_ext h h' n : _parent h = _parent h' → parent h n = parent h' n.
Proof. unfold parent. by intros ->. Qed.

(** ** Paths *)

Lemma path_loop_acc fuel h nd acc :
  path_loop fuel h nd acc = (λ l, l ++ acc) <$> path_loop fuel h nd [].
Proof.
  revert nd acc. induction fuel as [|fuel IH]; intros [n|] acc; simpl; try done.
  rewrite (IH _ (n :: acc)), (IH _ [n]).
  destruct (path_loop fuel h (parent h n) []) as [l|]; simpl; [|done].
  by rewrite <- app_assoc.
Qed.

Lemma _path_S fuel h n :
  _path (S fuel) h n =
    match parent h n with
    | Some p => (λ l, l ++ [n]) <$> _path fuel h p
    | None => Some [n]
    end.
Proof.
  unfold _path; simpl. destruct (parent h n) as [p|].
  - apply path_loop_acc.
  - by destruct fuel.
Qed.

Lemma _path_Path fuel h n l : _path fuel h n = Some l → Path h n l.
Proof.
  revert n l. induction fuel as [|fuel IH]; intros n l; [done|].
  rewrite _path_S. destruct (parent h n) as [p|] eqn:Hp.
  - destruct (_path fuel h p) as [l'|] eqn:Hl; simpl; [|done].
    intros [= <-]. eapply Path_step; eauto.
  - intros [= <-]. by constructor.
Qed.

Lemma Path_path h n l :
  Path h n l → ∀ fuel, length l ≤ fuel → _path fuel h n = Some l.
Proof.
  induction 1 as [n Hn|n p l Hp _ IH]; intros [|fuel] Hlen;
    try (rewrite ?length_app in Hlen; simpl in Hlen; lia).
  - by rewrite _path_S, Hn.
  - rewrite _path_S, Hp, IH; [done|].
    rewrite length_app in Hlen; simpl in Hlen. lia.
Qed.

Lemma Path_det h n l l' : Path h n l → Path h n l' → l = l'.
Proof.
  intros H; revert l'. induction H as [n Hn|n p l Hp _ IH]; intros l' H';
    inversion H'; subst; try congruence.
  assert (p = p0) as <- by congruence. f_equal. by apply IH.
Qed.

Lemma Path_snoc h n l : Path h n l → ∃ l', l = l' ++ [n].
Proof. destruct 1; [by exists []|eauto]. Qed.

Lemma Path_last h n l : Path h n l → last l = Some n.
Proof. intros [l' ->]%Path_snoc. apply last_snoc. Qed.

Lemma Path_self h n l : Path h n l → n ∈ l.
Proof. intros [l' ->]%Path_snoc. set_solver. Qed.

Lemma Path_head h n l : Path h n l → ∃ r l', l = r :: l' ∧ parent h r = None.
Proof.
  induction 1 as [n Hn|n p l Hp _ (r & l' & -> & Hr)]; [by exists n, []|].
  by exists r, (l' ++ [n]).
Qed.

(** The part of a path up to one of its nodes is the path of that
    node. *)
Lemma Path_prefix h n l1 x l2 :
  Path h n (l1 ++ x :: l2) → Path h x (l1 ++ [x]).
Proof.
  revert n l1. induction l2 as [|y l2 IH] using rev_ind; intros n l1 H.
  - pose proof (Path_last _ _ _ H) as Hl. rewrite last_snoc in Hl.
    by injection Hl as ->.
  - remember (l1 ++ x :: l2 ++ [y]) as l eqn:Heq.
    destruct H as [n Hn|n p l Hp Hl].
    + apply (f_equal length) in Heq. rewrite !length_app in Heq; simpl in Heq.
      rewrite length_app in Heq; simpl in Heq. lia.
    + change (l1 ++ x :: l2 ++ [y]) with (l1 ++ (x :: l2) ++ [y]) in Heq.
      rewrite app_assoc in Heq. apply app_inj_tail in Heq as [-> ->].
      by eapply IH.
Qed.

Lemma Path_NoDup h n l : Path h n l → NoDup l.
Proof.
  intros H. apply NoDup_alt. intros i j x Hi Hj.
  destruct (decide (i = j)) as [|Hne]; [done|exfalso].
  assert (∀ i j, i < j → l !! i = Some x → l !! j = Some x → False) as Hlt.
  { clear i j Hi Hj Hne. intros i j Hij Hi Hj.
    apply take_drop_middle in Hi as Hsplit1.
    apply take_drop_middle in Hj as Hsplit2.
    pose proof H as H1. rewrite <- Hsplit1 in H1. apply Path_prefix in H1.
    pose proof H as H2. rewrite <- Hsplit2 in H2. apply Path_prefix in H2.
    pose proof (Path_det _ _ _ _ H1 H2) as Heq.
    apply (f_equal length) in Heq. rewrite !length_app, !length_take in Heq.
    apply lookup_lt_Some in Hi, Hj. simpl in Heq. lia. }
  destruct (decide (i < j)); [by eapply (Hlt i j)|eapply (Hlt j i); eauto; lia].
Qed.

(** A node is not on the path of its parent. *)
Lemma Path_parent_not_in h n p l :
  parent h n = Some p → Path h p l → n ∉ l.
Proof.
  intros Hp Hl Hin.
  pose proof (Path_NoDup _ _ _ (Path_step _ _ _ _ Hp Hl)) as Hnd.
  apply NoDup_app in Hnd as (_ & Hnd & _). apply (Hnd n Hin). set_solver.
Qed.

Lemma Path_parent_ne h n p : acyclic h → parent h n = Some p → p ≠ n.
Proof.
  intros Hac Hp ->. destruct (Hac n) as [l Hl].
  eapply Path_parent_not_in; eauto using Path_self.
Qed.

(** A path only reads the [parent] of the nodes on it. *)
Lemma Path_agree h h' n l :
  Path h n l → (∀ x, x ∈ l → parent h' x = parent h x) → Path h' n l.
Proof.
  induction 1 as [n Hn|n p l Hp _ IH]; intros Hagree.
  - constructor. rewrite Hagree; [done|set_solver].
  - eapply Path_step; [rewrite Hagree; [done|set_solver]|].
    apply IH. intros x Hx. apply Hagree. set_solver.
Qed.

Lemma Path_ext h h' n l : _parent h = _parent h' → Path h n l → Path h' n l.
Proof.
  intros Heq H. eapply Path_agree; [done|]. intros. symmetry. by apply parent_ext.
Qed.

Lemma _path_ext fuel h h' n : _parent h = _parent h' → _path fuel h n = _path fuel h' n.
Proof.
  intros Heq. revert n. induction fuel as [|fuel IH]; intros n; [done|].
  rewrite !_path_S, <- (parent_ext h h' n Heq).
  destruct (parent h n); [by rewrite IH|done].
Qed.

Lemma acyclic_ext h h' : _parent h = _parent h' → acyclic h → acyclic h'.
Proof. intros Heq Hac n. destruct (Hac n) as [l Hl]. eauto using Path_ext. Qed.

(** ** The parent setter *)

Lemma detach_eq self p h :
  detach self p h =
    if bool_decide (self ∈ _children h p)
    then (Returns (),
          Heap (_parent h)
               (<[p := list_remove_first self (_children h p)]> (__children h))
               (_match_cache h)
               ((hooks h ++ [PreDetach self p]) ++ [PostDetach self p]))
    else (Raises AssertionError,
          Heap (_parent h) (__children h) (_match_cache h)
               (hooks h ++ [PreDetach self p])).
Proof.
  unfold detach; munfold; simpl. unfold _children; simpl.
  by case_bool_decide.
Qed.

Lemma attach_eq self v h :
  attach self v h =
    if bool_decide (self ∉ _children h v)
    then (Returns (),
          Heap (_parent h)
               (<[v := _children h v ++ [self]]> (__children h))
               (_match_cache h)
               ((hooks h ++ [PreAttach self v]) ++ [PostAttach self v]))
    else (Raises AssertionError,
          Heap (_parent h) (__children h) (_match_cache h)
               (hooks h ++ [PreAttach self v])).
Proof.
  unfold attach; munfold; simpl. unfold _children; simpl.
  by case_bool_decide.
Qed.

(** Runs the setter symbolically: every branch of the code becomes one
    goal. *)
Ltac setter_cases :=
  unfold set_parent, path; munfold;
  repeat first
    [ rewrite detach_eq
    | rewrite attach_eq
    | progress simpl
    | case_bool_decide
    | match goal with
      | |- context [_path ?k (Heap (_parent ?h0) ?c ?m ?hk) ?v] =>
          rewrite (_path_ext k (Heap (_parent h0) c m hk) h0 v eq_refl)
      end
    | match goal with
      | |- context [match _path ?k ?h ?v with _ => _ end] =>
          let Hp := fresh "Hpath" in destruct (_path k h v) eqn:Hp
      end ].

Lemma set_parent_fail_parent fuel self value h o h' :
  set_parent fuel self value h = (o, h') →
  o ≠ Returns () →
  _parent h' = _parent h.
Proof.
  destruct value as [v|], (parent h self) as [p|] eqn:Hp;
    setter_cases; rewrite ?Hp; setter_cases;
    intros [= <- <-]; simpl; congruence.
Qed.

Lemma list_remove_first_other x y l :
  y ≠ x → y ∈ list_remove_first x l ↔ y ∈ l.
Proof.
  intros Hne. induction l as [|z l IH]; simpl; [done|].
  case_decide as Hz; subst; rewrite !elem_of_cons, ?IH; [|done].
  split; [by right|]. by intros [->|?].
Qed.

Lemma list_remove_first_NoDup x l :
  NoDup l → NoDup (list_remove_first x l) ∧ x ∉ list_remove_first x l.
Proof.
  induction 1 as [|z l Hz Hl IH]; simpl; [split; [constructor|by inversion 1]|].
  case_decide as Hzx; subst; [done|].
  destruct IH as [IH1 IH2]. split.
  - constructor; [|done]. by rewrite list_remove_first_other.
  - rewrite elem_of_cons. by intros [->|?].
Qed.

Lemma set_parent_same_eq fuel B h :
  set_parent fuel B (parent h B) h =
    (Returns (),
     Heap (<[B := parent h B]> (_parent h)) (__children h) (_match_cache h) (hooks h)).
Proof.
  destruct (parent h B) as [p|] eqn:Hp; setter_cases; rewrite ?Hp; setter_cases;
    congruence.
Qed.

(** C9.  Assigning to [B.parent] the value it already has returns
    normally, calls none of the four notification slots, and leaves the
    parent and the children of every node as they were. *)
Theorem set_parent_current_is_noop (fuel : nat) (B : node) (h : heap) :
  let h' := run (set_parent fuel B (parent h B)) h in
  result (set_parent fuel B (parent h B)) h = Returns () ∧
  hooks h' = hooks h ∧
  ∀ n, parent h' n = parent h n ∧ children h' n = children h n.
Proof.
  unfold run, result. rewrite set_parent_same_eq; simpl.
  split; [done|]. split; [done|]. intros n. split; [|done].
  destruct (decide (n = B)) as [->|Hne].
  - apply parent_store_eq.
  - by apply parent_store_ne.
Qed.

(** C10.  When [n.parent = v] raises [LoopError], reading [n.parent]
    afterwards gives what it gave before. *)
Theorem set_parent_LoopError_keeps_parent
    (fuel : nat) (n : node) (v : option node) (h : heap) :
  result (set_parent fuel n v) h = Raises LoopError →
  parent (run (set_parent fuel n v) h) n = parent h n.
Proof.
  unfold result, run. destruct (set_parent fuel n v h) as [o h'] eqn:Hset.
  simpl. intros ->. apply parent_ext.
  by eapply set_parent_fail_parent.
Qed.

Lemma set_parent_LoopError_keeps_parent_witness :
  result (set_parent 3 2 (Some 3)) udo_tree = Raises LoopError ∧
  parent (run (set_parent 3 2 (Some 3)) udo_tree) 2 = Some 1.
Proof.
  split; [vm_compute; reflexivity|].
  rewrite (set_parent_LoopError_keeps_parent 3 2 (Some 3) udo_tree);
    vm_compute; reflexivity.
Defined.

(** On a heap that satisfies the invariants, [A.parent = A] for a node
    with a parent raises [LoopError] only after [A] has left the
    children of that parent. *)
Lemma LoopError_detaches fuel h A P :
  wf h → parent h A = Some P →
  result (set_parent fuel A (Some A)) h = Raises LoopError ∧
  parent (run (set_parent fuel A (Some A)) h) A = Some P ∧
  A ∉ children (run (set_parent fuel A (Some A)) h) P.
Proof.
  intros [Hac Hreg Hown Honce] Hp.
  pose proof (Path_parent_ne _ _ _ Hac Hp) as Hne.
  pose proof (Hreg _ _ Hp) as Hin.
  unfold result, run, children.
  setter_cases; rewrite ?Hp in *; setter_cases; try congruence.
  split; [done|]. split; [exact Hp|].
  unfold _children at 1; simpl. rewrite lookup_insert_eq; simpl.
  by apply list_remove_first_NoDup.
Qed.

(** C1.  [marc.parent = marc] on the tree udo -> marc -> lian raises
    [LoopError] after marc has been removed from udo's children: marc
    still names udo as its parent, udo no longer lists marc, and the
    next detach trips over "Tree internal data is corrupt."  The same
    happens for [marc.parent = lian], a descendant. *)
Theorem LoopError_after_detach :
  parent udo_tree 2 = Some 1 ∧ children udo_tree 1 = [2] ∧
  (let h' := run (set_parent 3 2 (Some 2)) udo_tree in
   result (set_parent 3 2 (Some 2)) udo_tree = Raises LoopError ∧
   parent h' 2 = Some 1 ∧ children h' 1 = [] ∧
   result (set_parent 3 2 None) h' = Raises AssertionError) ∧
  (let h' := run (set_parent 3 2 (Some 3)) udo_tree in
   result (set_parent 3 2 (Some 3)) udo_tree = Raises LoopError ∧
   parent h' 2 = Some 1 ∧ children h' 1 = []).
Proof. vm_compute. repeat split; reflexivity. Qed.

(** ** Soundness of the executable check *)

Lemma forallb_elem_of {A} (f : A → bool) (l : list A) x :
  forallb f l = true → x ∈ l → f x = true.
Proof. rewrite forallb_forall. intros H Hx. apply H. by apply list_elem_of_In. Qed.

Lemma acyclic_check_sound h : acyclic_check h = true → acyclic h.
Proof.
  intros Hc n. unfold acyclic_check in Hc.
  destruct (_parent h !! n) as [v|] eqn:Hn.
  - apply elem_of_map_to_list in Hn.
    pose proof (forallb_elem_of _ _ _ Hc Hn) as Hs. simpl in Hs.
    apply bool_decide_eq_true in Hs as [l Hl].
    exists l. by eapply _path_Path.
  - exists [n]. constructor. unfold parent. by rewrite Hn.
Qed.

Lemma registered_check_sound h : registered_check h = true → registered h.
Proof.
  intros Hc n p Hp. unfold registered_check in Hc. unfold parent in Hp.
  destruct (_parent h !! n) as [v|] eqn:Hn; simpl in Hp; [subst v|done].
  apply elem_of_map_to_list in Hn.
  pose proof (forallb_elem_of _ _ _ Hc Hn) as Hs. simpl in Hs.
  by apply bool_decide_eq_true in Hs.
Qed.

Lemma owned_check_sound h : owned_check h = true → owned h.
Proof.
  intros Hc n p Hin. unfold owned_check in Hc. unfold _children in Hin.
  destruct (__children h !! p) as [l|] eqn:Hl; simpl in Hin; [|by inversion Hin].
  apply elem_of_map_to_list in Hl.
  pose proof (forallb_elem_of _ _ _ Hc Hl) as Hs. simpl in Hs.
  pose proof (forallb_elem_of _ _ _ Hs Hin) as Hn.
  by apply bool_decide_eq_true in Hn.
Qed.

Lemma once_check_sound h : once_check h = true → once h.
Proof.
  intros Hc p. unfold once_check in Hc. unfold _children.
  destruct (__children h !! p) as [l|] eqn:Hl; simpl; [|constructor].
  apply elem_of_map_to_list in Hl.
  pose proof (forallb_elem_of _ _ _ Hc Hl) as Hs. simpl in Hs.
  by apply bool_decide_eq_true in Hs.
Qed.

Lemma wf_check_sound h : wf_check h = true → wf h.
Proof.
  unfold wf_check. rewrite !andb_true_iff. intros [[[H1 H2] H3] H4].
  split; auto using acyclic_check_sound, registered_check_sound,
    owned_check_sound, once_check_sound.
Qed.

(** ** Loop detection *)

Lemma set_parent_LoopError_wf h self v vpath fuel :
  wf h → Path h v vpath → length vpath ≤ fuel →
  result (set_parent fuel self (Some v)) h =
    if bool_decide (v = self ∨ self ∈ vpath)
    then Raises LoopError else Returns ().
Proof.
  intros [Hac Hreg Hown Honce] Hv Hfuel.
  pose proof (Path_path _ _ _ Hv _ Hfuel) as Hpath.
  assert (v = self ∨ self ∈ vpath ↔ self ∈ vpath) as Hor.
  { split; [intros [->|]|]; eauto using Path_self. }
  unfold result.
  destruct (parent h self) as [p|] eqn:Hp.
  - destruct (decide (p = v)) as [->|Hne].
    + rewrite <- Hp, set_parent_same_eq; simpl.
      rewrite bool_decide_eq_false_2; [done|].
      rewrite Hor. by eapply Path_parent_not_in.
    + pose proof (Hreg _ _ Hp) as Hin.
      setter_cases; rewrite ?Hp in *; setter_cases; simplify_eq; try tauto.
      all: exfalso; match goal with H : _ ∈ _children (Heap _ _ _ _) _ |- _ =>
             unfold _children in H; simpl in H;
             rewrite lookup_insert_ne in H by done; apply Hown in H end.
      all: congruence.
  - setter_cases; rewrite ?Hp in *; setter_cases; simplify_eq; try tauto.
    all: exfalso; match goal with H : _ ∈ _children _ ?w, H' : ?w ≠ _ |- _ =>
           apply Hown in H end.
    all: congruence.
Qed.

(** Loop detection on a heap that satisfies the invariants of the data
    model: [self.parent = v] for a node [v] raises [LoopError] exactly
    when [v] is [self] or [self] is on [v.path]; in every other case
    the assignment returns normally. *)
Theorem set_parent_LoopError_iff (h : heap) (self v : node) :
  wf h →
  ∃ fuel0 vpath, ∀ fuel, fuel0 ≤ fuel →
    _path fuel h v = Some vpath ∧
    result (set_parent fuel self (Some v)) h =
      if bool_decide (v = self ∨ self ∈ vpath)
      then Raises LoopError else Returns ().
Proof.
  intros Hwf. destruct (wf_acyclic _ Hwf v) as [vpath Hv].
  exists (length vpath), vpath. intros fuel Hfuel. split.
  - by apply Path_path.
  - by apply set_parent_LoopError_wf.
Qed.

Lemma set_parent_LoopError_iff_witness :
  wf udo_tree ∧
  ∃ fuel0 vpath, ∀ fuel, fuel0 ≤ fuel →
    _path fuel udo_tree 3 = Some vpath ∧
    result (set_parent fuel 1 (Some 3)) udo_tree =
      if bool_decide (3 = 1 ∨ 1 ∈ vpath)
      then Raises LoopError else Returns ().
Proof.
  assert (wf udo_tree) as Hwf by (apply wf_check_sound; vm_compute; reflexivity).
  split; [exact Hwf|]. exact (set_parent_LoopError_iff udo_tree 1 3 Hwf).
Defined.

(** A node that names a parent which does not list it cannot be
    detached: every assignment of another value stops at the first
    "Tree internal data is corrupt." assertion. *)
Lemma unregistered_AssertionError fuel h A P value :
  parent h A = Some P → A ∉ children h P → value ≠ Some P →
  result (set_parent fuel A value) h = Raises AssertionError.
Proof.
  intros Hp Hnin Hne. unfold result, children in *.
  destruct value as [v|]; setter_cases; rewrite ?Hp in *; setter_cases;
    try done; congruence.
Qed.

(** C2.  The loop check is not reached in a state the setter itself
    leaves behind.  On a heap that satisfies the invariants let [A] have
    a parent: [A.parent = A] raises [LoopError], and after that
    [A.parent = A] raises [AssertionError] ("Tree internal data is
    corrupt."), and so does [A.parent = v] for every [v] that has [A]
    on its path - the two cases in which the assignment is to raise
    [LoopError]. *)
Theorem LoopError_then_AssertionError (fuel fuel' : nat) (h : heap) (A P : node) :
  wf h → parent h A = Some P →
  let h' := run (set_parent fuel A (Some A)) h in
  result (set_parent fuel A (Some A)) h = Raises LoopError ∧
  result (set_parent fuel' A (Some A)) h' = Raises AssertionError ∧
  ∀ v vpath, _path fuel' h' v = Some vpath → A ∈ vpath →
    result (set_parent fuel' A (Some v)) h' = Raises AssertionError.
Proof.
  intros Hwf Hp h'. subst h'.
  destruct (LoopError_detaches fuel h A P Hwf Hp) as (Hres & Hp' & Hnin).
  split; [exact Hres|]. split.
  - apply (unregistered_AssertionError _ _ _ P); [done|done|].
    intros [= ->]. by apply (Path_parent_ne h P P (wf_acyclic _ Hwf)).
  - intros v vpath Hv Hin.
    apply (unregistered_AssertionError _ _ _ P); [done|done|].
    intros [= ->]. apply _path_Path in Hv.
    by apply (Path_parent_not_in _ _ _ _ Hp' Hv).
Qed.

Lemma LoopError_then_AssertionError_witness :
  wf udo_tree ∧ parent udo_tree 2 = Some 1 ∧
  let h' := run (set_parent 3 2 (Some 2)) udo_tree in
  result (set_parent 3 2 (Some 2)) udo_tree = Raises LoopError ∧
  result (set_parent 3 2 (Some 2)) h' = Raises AssertionError ∧
  ∀ v vpath, _path 3 h' v = Some vpath → 2 ∈ vpath →
    result (set_parent 3 2 (Some v)) h' = Raises AssertionError.
Proof.
  assert (wf udo_tree) as Hwf by (apply wf_check_sound; vm_compute; reflexivity).
  assert (parent udo_tree 2 = Some 1) as Hp by reflexivity.
  split; [exact Hwf|]. split; [exact Hp|].
  exact (LoopError_then_AssertionError 3 3 udo_tree 2 1 Hwf Hp).
Defined.

(** On udo -> marc -> lian, after [marc.parent = marc] has raised
    [LoopError]: marc is still on the path of lian, and
    [marc.parent = lian] raises [AssertionError]. *)
Example LoopError_then_descendant :
  let h' := run (set_parent 3 2 (Some 2)) udo_tree in
  _path 3 h' 3 = Some [1; 2; 3] ∧
  result (set_parent 3 2 (Some 3)) h' = Raises AssertionError ∧
  result (set_parent 3 2 (Some 3)) udo_tree = Raises LoopError.
Proof. vm_compute. repeat split; reflexivity. Qed.

(** On udo -> marc -> lian: udo under lian and marc under itself are
    loops, lian directly under udo is not. *)
Example loop_examples :
  result (set_parent 3 1 (Some 3)) udo_tree = Raises LoopError ∧
  result (set_parent 3 2 (Some 2)) udo_tree = Raises LoopError ∧
  result (set_parent 3 3 (Some 1)) udo_tree = Returns () ∧
  children (run (set_parent 3 3 (Some 1)) udo_tree) 1 = [2; 3].
Proof. vm_compute. repeat split; reflexivity. Qed.

(** ** Attaching and detaching *)

Lemma set_parent_attach_run h A B pa fuel :
  wf h → Path h A pa → B ∉ pa → length pa ≤ fuel →
  parent h B ≠ Some A →
  let h1 := run (set_parent fuel B (Some A)) h in
  _parent h1 = <[B := Some A]> (_parent h) ∧
  _children h1 A = _children h A ++ [B].
Proof.
  intros Hwf Hpa HB Hfuel Hne.
  pose proof (set_parent_LoopError_wf h B A pa fuel Hwf Hpa Hfuel) as Hres.
  pose proof (Path_path _ _ _ Hpa _ Hfuel) as Hpath.
  destruct Hwf as [Hac Hreg Hown Honce].
  rewrite bool_decide_eq_false_2 in Hres
    by (intros [->|]; [apply HB; eauto using Path_self|done]).
  revert Hres. unfold result, run.
  destruct (parent h B) as [p|] eqn:Hp.
  - setter_cases; rewrite ?Hp in *; setter_cases; simplify_eq; try done.
    intros _. split; [done|].
    unfold _children; simpl. rewrite lookup_insert_eq; simpl.
    by rewrite lookup_insert_ne by congruence.
  - setter_cases; rewrite ?Hp in *; setter_cases; simplify_eq; try done.
    intros _. split; [done|].
    unfold _children; simpl. by rewrite lookup_insert_eq.
Qed.

Lemma set_parent_None_eq h B A fuel :
  parent h B = Some A → B ∈ _children h A →
  set_parent fuel B None h =
    (Returns (),
     Heap (<[B := None]> (_parent h))
          (<[A := list_remove_first B (_children h A)]> (__children h))
          (_match_cache h)
          ((hooks h ++ [PreDetach B A]) ++ [PostDetach B A])).
Proof. intros Hp Hin. setter_cases; rewrite ?Hp; setter_cases; done. Qed.

Lemma set_parent_attach_facts h A B pa fuel :
  wf h → Path h A pa → B ∉ pa → length pa ≤ fuel →
  let h1 := run (set_parent fuel B (Some A)) h in
  result (set_parent fuel B (Some A)) h = Returns () ∧
  _parent h1 = <[B := Some A]> (_parent h) ∧
  (parent h B ≠ Some A → _children h1 A = _children h A ++ [B]) ∧
  (parent h B = Some A → _children h1 A = _children h A) ∧
  B ∈ _children h1 A ∧ NoDup (_children h1 A).
Proof.
  intros Hwf Hpa HB Hfuel h1.
  pose proof (set_parent_LoopError_wf h B A pa fuel Hwf Hpa Hfuel) as Hres.
  rewrite bool_decide_eq_false_2 in Hres
    by (intros [->|]; [apply HB; eauto using Path_self|done]).
  split; [done|].
  destruct (decide (parent h B = Some A)) as [Hp|Hp].
  - pose proof (set_parent_same_eq fuel B h) as Heq. rewrite Hp in Heq.
    subst h1. unfold run. rewrite Heq; simpl.
    repeat split; try done.
    + by apply (wf_registered _ Hwf).
    + apply (wf_once _ Hwf).
  - destruct (set_parent_attach_run h A B pa fuel Hwf Hpa HB Hfuel Hp) as [H1 H2].
    fold h1 in H1, H2. repeat split; try done.
    + rewrite H2. set_solver.
    + rewrite H2. apply NoDup_app. split; [apply (wf_once _ Hwf)|].
      split; [|apply NoDup_singleton].
      intros x Hx ->%list_elem_of_singleton.
      apply (wf_owned _ Hwf) in Hx. congruence.
Qed.

(** What a pre-order traversal returns contains its stack and is
    closed under [children]. *)
Lemma preorder_closed fuel h stack l :
  preorder fuel h stack = Some l →
  (∀ x, x ∈ stack → x ∈ l) ∧ (∀ x c, x ∈ l → c ∈ children h x → c ∈ l).
Proof.
  revert stack l. induction fuel as [|fuel IH]; intros [|n stack] l; simpl;
    try done.
  - intros [= <-]. split; [done|]. intros x c Hx. by inversion Hx.
  - intros [= <-]. split; [done|]. intros x c Hx. by inversion Hx.
  - destruct (preorder fuel h (children h n ++ stack)) as [l'|] eqn:Hl'; [|done].
    simpl. intros [= <-]. destruct (IH _ _ Hl') as [Hstack Hclosed]. split.
    + intros x [->|Hx]%elem_of_cons; [left|right].
      apply Hstack, elem_of_app. by right.
    + intros x c [->|Hx]%elem_of_cons Hc; right.
      * apply Hstack, elem_of_app. by left.
      * by eapply Hclosed.
Qed.

(** A node with [B] on its path, other than [B], is among
    [B.descendants]. *)
Lemma on_path_in_descendants fuel h A B pa l :
  registered h → Path h A pa → B ∈ pa → A ≠ B →
  descendants fuel h B = Some l → A ∈ l.
Proof.
  intros Hreg Hpa HB Hne. unfold descendants.
  destruct (preorder fuel h [B]) as [l'|] eqn:Hl'; [|done].
  simpl. intros [= <-].
  destruct (preorder_closed _ _ _ _ Hl') as [Hstack Hclosed].
  assert (A ∈ l') as HA.
  { clear Hne. induction Hpa as [n Hn|n p pl Hp Hpl IH].
    - apply list_elem_of_singleton in HB as ->. apply Hstack. left.
    - apply elem_of_app in HB as [HB|HB].
      + eapply Hclosed; [by apply IH|]. by apply Hreg.
      + apply list_elem_of_singleton in HB as ->. apply Hstack. left. }
  destruct fuel as [|fuel]; [done|]. simpl in Hl'.
  destruct (preorder fuel h (children h B ++ [])) as [l''|]; [|done].
  injection Hl' as <-. simpl.
  apply elem_of_cons in HA as [->|HA]; done.
Qed.

(** C3, as the code has it.  On a heap that satisfies the invariants,
    for distinct [A] and [B] with [A] not among [B.descendants]:
    [B.parent = A] returns; afterwards [A] is on [B.path] and [B] is in
    [A.children] - appended as the last child when [A] was not already
    the parent of [B], with [A.children] as it was when it already was.
    A following [B.parent = None] returns, makes [B] a root and takes
    [B] out of [A.children]. *)
Theorem attach_then_detach (h : heap) (A B : node) :
  wf h → A ≠ B →
  (∃ fuel desc, descendants fuel h B = Some desc ∧ A ∉ desc) →
  ∃ fuel0, ∀ fuel, fuel0 ≤ fuel →
    let h1 := run (set_parent fuel B (Some A)) h in
    let h2 := run (set_parent fuel B None) h1 in
    result (set_parent fuel B (Some A)) h = Returns () ∧
    (∃ pb, _path fuel h1 B = Some pb ∧ A ∈ pb) ∧
    B ∈ children h1 A ∧
    (parent h B ≠ Some A → children h1 A = children h A ++ [B]) ∧
    (parent h B = Some A → children h1 A = children h A) ∧
    result (set_parent fuel B None) h1 = Returns () ∧
    is_root h2 B = true ∧
    B ∉ children h2 A.
Proof.
  intros Hwf HAB (fuel_d & desc & Hdesc & HA).
  destruct (wf_acyclic _ Hwf A) as [pa Hpa].
  assert (B ∉ pa) as HB.
  { intros Hin. apply HA.
    eapply on_path_in_descendants; eauto using wf_registered. }
  exists (S (length pa)). intros fuel Hfuel h1 h2.
  destruct (set_parent_attach_facts h A B pa fuel Hwf Hpa HB ltac:(lia))
    as (Hres & Hpar & Happ & Hsame & Hin & Hnd).
  fold h1 in Hpar, Happ, Hsame, Hin, Hnd.
  assert (parent h1 B = Some A) as HpB.
  { unfold parent. by rewrite Hpar, lookup_insert_eq. }
  assert (Path h1 A pa) as Hpa1.
  { eapply Path_agree; [done|]. intros x Hx. unfold parent.
    rewrite Hpar, lookup_insert_ne; [done|]. by intros ->. }
  split; [done|]. split.
  { exists (pa ++ [B]). split; [|apply elem_of_app; left; eauto using Path_self].
    apply Path_path; [by eapply Path_step|].
    rewrite length_app; simpl. lia. }
  split; [done|]. split; [done|]. split; [done|].
  subst h2. unfold result, run.
  rewrite (set_parent_None_eq h1 B A fuel HpB Hin); simpl.
  split; [done|]. split.
  - unfold is_root. apply bool_decide_eq_true. apply parent_store_eq.
  - unfold children, _children at 1; simpl. rewrite lookup_insert_eq; simpl.
    by apply list_remove_first_NoDup.
Qed.

Lemma attach_then_detach_witness :
  wf udo_tree ∧ 1 ≠ 3 ∧
  (∃ fuel desc, descendants fuel udo_tree 3 = Some desc ∧ 1 ∉ desc) ∧
  ∃ fuel0, ∀ fuel, fuel0 ≤ fuel →
    let h1 := run (set_parent fuel 3 (Some 1)) udo_tree in
    let h2 := run (set_parent fuel 3 None) h1 in
    result (set_parent fuel 3 (Some 1)) udo_tree = Returns () ∧
    (∃ pb, _path fuel h1 3 = Some pb ∧ 1 ∈ pb) ∧
    3 ∈ children h1 1 ∧
    (parent udo_tree 3 ≠ Some 1 → children h1 1 = children udo_tree 1 ++ [3]) ∧
    (parent udo_tree 3 = Some 1 → children h1 1 = children udo_tree 1) ∧
    result (set_parent fuel 3 None) h1 = Returns () ∧
    is_root h2 3 = true ∧
    3 ∉ children h2 1.
Proof.
  assert (wf udo_tree) as Hwf by (apply wf_check_sound; vm_compute; reflexivity).
  assert (1 ≠ 3) as Hne by lia.
  assert (∃ fuel desc, descendants fuel udo_tree 3 = Some desc ∧ 1 ∉ desc) as Hnd.
  { exists 3, []. split; [vm_compute; reflexivity|]. intros Hin. inversion Hin. }
  split; [exact Hwf|]. split; [exact Hne|]. split; [exact Hnd|].
  exact (attach_then_detach udo_tree 1 3 Hwf Hne Hnd).
Defined.

(** C3 as stated fails: jet is the first of dan's three children and
    dan is not among jet's descendants; [jet.parent = dan] keeps the
    parent, so jet stays a child of dan but is not moved to the end. *)
Lemma reattach_keeps_position :
  wf dan_tree ∧ 1 ≠ 2 ∧
  descendants 4 dan_tree 2 = Some [] ∧
  ∀ fuel,
    let h1 := run (set_parent fuel 2 (Some 1)) dan_tree in
    result (set_parent fuel 2 (Some 1)) dan_tree = Returns () ∧
    children h1 1 = [2; 3; 4] ∧
    last (children h1 1) ≠ Some 2.
Proof.
  split; [apply wf_check_sound; vm_compute; reflexivity|].
  split; [lia|]. split; [vm_compute; reflexivity|].
  intros fuel h1. subst h1. unfold result, run.
  change (Some 1) with (parent dan_tree 2). rewrite set_parent_same_eq.
  vm_compute. repeat split; congruence.
Qed.

(** ** Acyclicity is an invariant of every assignment *)

Lemma set_parent_success fuel self value h h' :
  set_parent fuel self value h = (Returns (), h') →
  _parent h' = <[self := value]> (_parent h) ∧
  (value = None ∨
   ∃ v, value = Some v ∧
        (parent h self = Some v ∨ ∃ l, _path fuel h v = Some l ∧ self ∉ l)).
Proof.
  destruct value as [v|], (parent h self) as [p|] eqn:Hp;
    setter_cases; rewrite ?Hp; setter_cases;
    intros [= <-]; simpl; (split; [done|]); eauto 10; try congruence.
  right. exists v. split; [done|]. left.
  destruct (decide (p = v)); congruence.
Qed.

Lemma Path_reroute h h' B lB n ln :
  (∀ x, x ≠ B → parent h' x = parent h x) →
  Path h' B lB → Path h n ln → ∃ l', Path h' n l'.
Proof.
  intros Hagree HB. induction 1 as [n Hn|n p l Hp _ [l' IH]].
  - destruct (decide (n = B)) as [->|Hne]; [eauto|].
    exists [n]. constructor. by rewrite Hagree.
  - destruct (decide (n = B)) as [->|Hne]; [eauto|].
    exists (l' ++ [n]). eapply Path_step; [|done]. by rewrite Hagree.
Qed.

Lemma set_parent_acyclic fuel self value h :
  acyclic h → acyclic (run (set_parent fuel self value) h).
Proof.
  intros Hac. unfold run.
  destruct (set_parent fuel self value h) as [o h'] eqn:Hset; simpl.
  assert (o = Returns () ∨ o ≠ Returns ()) as [->|Hne]
    by (destruct o as [[]| |]; auto).
  2: { eapply acyclic_ext; [symmetry; by eapply set_parent_fail_parent|done]. }
  apply set_parent_success in Hset as [Hpar Hcase].
  assert (∀ x, x ≠ self → parent h' x = parent h x) as Hagree.
  { intros x Hx. unfold parent. by rewrite Hpar, lookup_insert_ne. }
  assert (parent h' self = value) as Hself.
  { unfold parent. by rewrite Hpar, lookup_insert_eq. }
  assert (∃ lB, Path h' self lB) as [lB HlB].
  { destruct Hcase as [->|(v & -> & [Hp|(l & Hl & Hnin)])].
    - exists [self]. by constructor.
    - destruct (Hac self) as [l Hl]. exists l.
      eapply Path_agree; [done|]. intros x _.
      destruct (decide (x = self)) as [->|]; [congruence|by apply Hagree].
    - apply _path_Path in Hl. exists (l ++ [self]).
      eapply Path_step; [done|]. eapply Path_agree; [done|].
      intros x Hx. apply Hagree. by intros ->. }
  intros n. destruct (Hac n) as [ln Hln]. by eapply Path_reroute.
Qed.

Lemma empty_heap_acyclic : acyclic empty_heap.
Proof. intros n. exists [n]. by constructor. Qed.

(** ** Walker *)






Lemma root_eq h n s fuel :
  Path h n s → length s ≤ fuel →
  ∃ r s', s = r :: s' ∧ root fuel n h = (Returns r, h).
Proof.
  intros Hs Hfuel. pose proof (Path_path _ _ _ Hs _ Hfuel) as Hpath.
  destruct (Path_head _ _ _ Hs) as (r & s' & -> & Hr).
  exists r, s'. split; [done|].
  unfold root, path; munfold.
  destruct (parent h n) as [p|] eqn:Hp.
  - by rewrite Hpath.
  - inversion Hs; subst; [done|congruence].
Qed.






(** The docstring example of [PreOrderIter]: f, b, a, d, c, e, g, i, h. *)
Example preorder_docstring :
  preorder 9 walker_tree [1] = Some [1; 2; 3; 4; 5; 6; 7; 8; 9] ∧
  descendants 9 walker_tree 2 = Some [3; 4; 5; 6].
Proof. vm_compute. split; reflexivity. Qed.

(** The docstring examples of [Walker.walk]. *)
Example walk_h_e :
  result (walk 9 9 6) walker_tree = Returns ([8; 7; 1], [2; 4; 6]) ∧
  result (walk 9 1 1) walker_tree = Returns ([], []) ∧
  result (walk 9 3 1) walker_tree = Returns ([2; 1], []) ∧
  result (walk 9 1 2) walker_tree = Returns ([], [2]) ∧
  result (walk 9 10 11) walker_tree = Raises WalkError.
Proof. vm_compute. repeat split; reflexivity. Qed.

(** ** Resolver: the pattern cache *)

Lemma __match_eq name pat h :
  cache_ok h →
  ∃ h', __match name pat h = (Returns (re_match (__translate pat) name), h') ∧
        forget_cache h' = forget_cache h ∧ cache_ok h'.
Proof.
  intros Hok. unfold __match; munfold; simpl.
  destruct (_match_cache h !! pat) as [re_pat|] eqn:Hc.
  - rewrite (Hok _ _ Hc). by exists h.
  - case_bool_decide; simpl; eexists; (split; [done|]); (split; [done|]).
    + intros pat' re' Hl. simpl in Hl.
      destruct (decide (pat = pat')) as [<-|Hne].
      * rewrite lookup_insert_eq in Hl. congruence.
      * by rewrite lookup_insert_ne, lookup_empty in Hl.
    + intros pat' re' Hl. simpl in Hl.
      destruct (decide (pat = pat')) as [<-|Hne].
      * rewrite lookup_insert_eq in Hl. congruence.
      * rewrite lookup_insert_ne in Hl by done. by apply Hok.
Qed.

Lemma empty_heap_cache_ok : cache_ok empty_heap.
Proof. intros pat re_pat Hl. simpl in Hl. by rewrite lookup_empty in Hl. Qed.

Lemma set_parent_cache fuel self value h :
  _match_cache (run (set_parent fuel self value) h) = _match_cache h.
Proof.
  unfold run.
  destruct value as [v|], (parent h self) as [p|] eqn:Hp;
    setter_cases; rewrite ?Hp; setter_cases; done.
Qed.

Lemma set_parent_cache_ok fuel self value h :
  cache_ok h → cache_ok (run (set_parent fuel self value) h).
Proof. unfold cache_ok. by rewrite set_parent_cache. Qed.

Lemma parent_forget_cache h n : parent (forget_cache h) n = parent h n.
Proof. done. Qed.

(** ** Resolver: globbing does not depend on the cache *)

Section GlobFacts.

Variable __get_part : node → string.

Lemma __get_nodemap_eq n h :
  __get_nodemap __get_part (Some n) h = (Returns (nodemap __get_part h n), h).
Proof. done. Qed.

Lemma glob_loop_eq (glob_child : node → M (list node))
    (pure_child : node → outcome (list node)) part rest h0 :
  (∀ c h, forget_cache h = forget_cache h0 → cache_ok h →
          ∃ h', glob_child c h = (pure_child c, h') ∧
                forget_cache h' = forget_cache h0 ∧ cache_ok h') →
  ∀ items matches h,
    forget_cache h = forget_cache h0 → cache_ok h →
    ∃ h', glob_loop glob_child part rest items matches h
          = (glob_loop_pure pure_child part rest items matches, h') ∧
          forget_cache h' = forget_cache h0 ∧ cache_ok h'.
Proof.
  intros Hchild. induction items as [|[name child] items IH];
    intros matches h Hh Hok; simpl.
  { by exists h. }
  unfold mbind, M_bind, bind at 1, try_except_ResolverError.
  unfold bind at 1.
  destruct (__match_eq name part h Hok) as (h1 & -> & Hh1 & Hok1).
  rewrite Hh in Hh1.
  destruct (re_match (__translate part) name).
  - destruct rest as [|r rest].
    + unfold mret, M_ret, ret. by apply IH.
    + unfold bind.
      destruct (Hchild child h1 Hh1 Hok1) as (h2 & -> & Hh2 & Hok2).
      destruct (pure_child child) as [found|e|].
      * unfold mret, M_ret, ret. by apply IH.
      * destruct (is_ResolverError e); [|by exists h2].
        destruct (__is_wildcard part); simpl.
        -- unfold mret, M_ret, ret. by apply IH.
        -- by exists h2.
      * by exists h2.
  - unfold mret, M_ret, ret. by apply IH.
Qed.

Lemma __glob_eq parts :
  ∀ nd h, cache_ok h →
    ∃ h', __glob __get_part nd parts h
          = (glob_pure __get_part (forget_cache h) nd parts, h') ∧
          forget_cache h' = forget_cache h ∧ cache_ok h'.
Proof.
  induction parts as [|part rest IH]; intros nd h Hok.
  { by exists h. }
  simpl. destruct (String.eqb part "..").
  { destruct nd as [n|]; [|by exists h].
    unfold mbind, M_bind, bind, parent_of, read.
    destruct (IH (parent h n) h Hok) as (h' & -> & Hh' & Hok').
    exists h'. rewrite parent_forget_cache.
    by destruct (glob_pure __get_part (forget_cache h) (parent h n) rest). }
  destruct (is_here part).
  { unfold mbind, M_bind, bind.
    destruct (IH nd h Hok) as (h' & -> & Hh' & Hok').
    exists h'. by destruct (glob_pure __get_part (forget_cache h) nd rest). }
  destruct nd as [n|]; [|by exists h].
  unfold mbind, M_bind. unfold bind at 1. rewrite __get_nodemap_eq.
  unfold bind at 1.
  destruct (glob_loop_eq (λ child, __glob __get_part (Some child) rest)
              (λ child, glob_pure __get_part (forget_cache h) (Some child) rest)
              part rest h) with (items := nodemap __get_part h n)
                                (matches := @nil node) (h := h)
    as (h' & -> & Hh' & Hok'); [|done|done|].
  { intros c h2 Hh2 Hok2. destruct (IH (Some c) h2 Hok2) as (h3 & Heq & Hh3 & Hok3).
    exists h3. rewrite Heq, Hh2. split; [done|]. split; [congruence|done]. }
  exists h'. change (nodemap __get_part (forget_cache h) n) with (nodemap __get_part h n).
  destruct (glob_loop_pure _ part rest (nodemap __get_part h n) []) as [matches|e|];
    [|done|done].
  unfold bind. destruct (bool_decide (matches = []) && negb (__is_wildcard part)); done.
Qed.

Lemma __glob_result nd parts h :
  cache_ok h →
  result (__glob __get_part nd parts) h = glob_pure __get_part (forget_cache h) nd parts.
Proof.
  intros Hok. unfold result.
  by destruct (__glob_eq parts nd h Hok) as (h' & -> & _).
Qed.

Lemma __glob_cache_ok nd parts h :
  cache_ok h → cache_ok (run (__glob __get_part nd parts) h).
Proof.
  intros Hok. unfold run.
  by destruct (__glob_eq parts nd h Hok) as (h' & -> & _ & ?).
Qed.

End GlobFacts.

(** ** Resolver: segments of a glob *)

Lemma re_match_literal part name :
  __is_wildcard part = false →
  re_match (__translate part) name = String.eqb part name.
Proof.
  unfold __is_wildcard. revert name.
  induction part as [|c part IH]; intros name Hw; simpl in *.
  { by destruct name. }
  apply orb_false_iff in Hw as [[Hq Hq']%orb_false_iff [Hs Hs']%orb_false_iff].
  rewrite Hs, Hq. destruct name as [|c' name]; [done|].
  rewrite IH; [done|]. by rewrite Hq', Hs'.
Qed.

Lemma wildcard_not_relative part :
  __is_wildcard part = true → String.eqb part ".." = false ∧ is_here part = false.
Proof.
  intros Hw. unfold is_here. split; [|apply orb_false_iff; split].
  all: destruct (String.eqb_spec part ".."), (String.eqb_spec part ""),
         (String.eqb_spec part "."); subst; try done.
Qed.

Lemma od_set_elem k v d kv : kv ∈ od_set k v d → kv = (k, v) ∨ kv ∈ d.
Proof.
  induction d as [|[k' v'] d IH]; simpl.
  - intros ->%list_elem_of_singleton. by left.
  - destruct (String.eqb k' k); rewrite !elem_of_cons; intuition.
Qed.

Lemma OrderedDict_elem items kv : kv ∈ OrderedDict items → kv ∈ items.
Proof.
  unfold OrderedDict.
  assert (∀ d, kv ∈ foldl (λ d kv, od_set kv.1 kv.2 d) d items → kv ∈ d ∨ kv ∈ items)
    as Hgen.
  { induction items as [|[k v] items IH]; intros d; simpl; [by left|].
    intros [[->|Hd]%od_set_elem|Hi]%IH; [right; left|by left|right; by right]. }
  intros [Hd|Hi]%Hgen; [by inversion Hd|done].
Qed.

Section SegmentFacts.

Variable __get_part : node → string.

Lemma nodemap_elem h n name c :
  (name, c) ∈ nodemap __get_part h n → c ∈ children h n ∧ name = __get_part c.
Proof.
  intros Hin%OrderedDict_elem. apply list_elem_of_fmap in Hin as (c' & [= -> ->] & Hc).
  done.
Qed.

Variable pure_child : node → outcome (list node).
Variables (part : string) (rest : list string).

Lemma glob_loop_pure_nomatch items matches :
  (∀ kc, kc ∈ items → re_match (__translate part) kc.1 = false) →
  glob_loop_pure pure_child part rest items matches = Returns matches.
Proof.
  revert matches. induction items as [|[name c] items IH]; intros matches Hno;
    simpl; [done|].
  pose proof (Hno (name, c)) as Hm. simpl in Hm. rewrite Hm by left.
  apply IH. intros kc Hkc. apply Hno. by right.
Qed.

Lemma glob_loop_pure_wildcard items matches :
  __is_wildcard part = true → rest ≠ [] →
  (∀ kc, kc ∈ items → re_match (__translate part) kc.1 = true →
         (∃ l, pure_child kc.2 = Returns l) ∨
         (∃ e, pure_child kc.2 = Raises e ∧ is_ResolverError e = true)) →
  glob_loop_pure pure_child part rest items matches
  = Returns (matches ++
             concat ((λ kc : string * node,
                        if re_match (__translate part) kc.1
                        then match pure_child kc.2 with Returns l => l | _ => [] end
                        else []) <$> items)).
Proof.
  intros Hw Hrest. revert matches.
  induction items as [|[name c] items IH]; intros matches Hsub; simpl.
  { by rewrite app_nil_r. }
  assert (∀ kc, kc ∈ items → re_match (__translate part) kc.1 = true →
                (∃ l, pure_child kc.2 = Returns l) ∨
                (∃ e, pure_child kc.2 = Raises e ∧ is_ResolverError e = true))
    as Hsub' by (intros kc Hkc; apply Hsub; by right).
  destruct (re_match (__translate part) name) eqn:Hm; [|by apply IH].
  destruct rest as [|r rest']; [done|].
  destruct (Hsub (name, c)) as [[l Hl]|(e & He & Hres)]; [by left|done| |];
    simpl in *.
  - rewrite Hl, IH by done. by rewrite app_assoc.
  - rewrite He, Hres, Hw. simpl. by apply IH.
Qed.

Lemma glob_loop_pure_reraise items matches c e :
  __is_wildcard part = false → rest ≠ [] →
  od_get part items = Some c →
  pure_child c = Raises e → is_ResolverError e = true →
  glob_loop_pure pure_child part rest items matches = Raises e.
Proof.
  intros Hw Hrest Hget He Hres. revert matches.
  induction items as [|[name c'] items IH]; intros matches; simpl in *; [done|].
  rewrite re_match_literal by done.
  rewrite String.eqb_sym. destruct (String.eqb name part).
  - injection Hget as ->. destruct rest; [done|].
    by rewrite He, Hres, Hw.
  - by apply IH.
Qed.

Lemma glob_loop_pure_no_ResolverError items matches e :
  __is_wildcard part = true →
  glob_loop_pure pure_child part rest items matches = Raises e →
  is_ResolverError e = false.
Proof.
  intros Hw. revert matches.
  induction items as [|[name c] items IH]; intros matches; simpl; [done|].
  destruct (re_match (__translate part) name); [|by apply IH].
  destruct rest; [by apply IH|].
  destruct (pure_child c) as [fnd|e'|]; [by apply IH| |done].
  destruct (is_ResolverError e') eqn:He'; [|congruence].
  rewrite Hw. simpl. by apply IH.
Qed.

End SegmentFacts.

Lemma cache_ok_empty h : _match_cache h = ∅ → cache_ok h.
Proof. intros Hc pat re_pat Hl. by rewrite Hc, lookup_empty in Hl. Qed.

(** C8.  For a segment [part] of a glob at node [n], with [rest] the
    segments after it:
    - if no child matches, a wildcard segment gives the empty list and
      a segment without wildcard raises [ChildResolverError];
    - a wildcard segment never raises a [ResolverError]: when every
      matched child's sub-resolution returns or raises a
      [ResolverError], the result is the concatenation of the lists
      returned, the raising children adding nothing;
    - for a segment without wildcard, a [ResolverError] raised below
      the matched child is raised by the segment too. *)
Theorem glob_segment_errors (__get_part : node → string) (h : heap) (n : node)
    (part : string) (rest : list string) :
  cache_ok h →
  let glob := λ nd parts, result (__glob __get_part nd parts) h in
  let matched := λ name, re_match (__translate part) name in
  ((∀ c, c ∈ children h n → matched (__get_part c) = false) →
   (__is_wildcard part = true → glob (Some n) (part :: rest) = Returns []) ∧
   (__is_wildcard part = false → part ≠ ".."%string → is_here part = false →
    glob (Some n) (part :: rest)
    = Raises (ChildResolverError n part (nodemap __get_part h n).*1))) ∧
  (__is_wildcard part = true →
   ∀ e, glob (Some n) (part :: rest) = Raises e → is_ResolverError e = false) ∧
  (__is_wildcard part = true → rest ≠ [] →
   (∀ c, c ∈ children h n → matched (__get_part c) = true →
         (∃ l, glob (Some c) rest = Returns l) ∨
         (∃ e, glob (Some c) rest = Raises e ∧ is_ResolverError e = true)) →
   glob (Some n) (part :: rest)
   = Returns (concat ((λ kc : string * node,
                         if matched kc.1
                         then match glob (Some kc.2) rest with
                              | Returns l => l
                              | _ => []
                              end
                         else []) <$> nodemap __get_part h n))) ∧
  (__is_wildcard part = false → part ≠ ".."%string → is_here part = false →
   rest ≠ [] →
   ∀ c e, od_get part (nodemap __get_part h n) = Some c →
          glob (Some c) rest = Raises e → is_ResolverError e = true →
          glob (Some n) (part :: rest) = Raises e).
Proof.
  intros Hok glob matched. subst glob matched. cbv beta.
  assert (∀ nd parts, result (__glob __get_part nd parts) h
                      = glob_pure __get_part (forget_cache h) nd parts) as Hpure
    by (intros; by apply __glob_result).
  assert (String.eqb part ".." = false → is_here part = false →
     glob_pure __get_part (forget_cache h) (Some n) (part :: rest) =
     match glob_loop_pure (λ child, glob_pure __get_part (forget_cache h) (Some child) rest)
             part rest (nodemap __get_part h n) [] with
     | Returns matches =>
         if bool_decide (matches = []) && negb (__is_wildcard part)
         then Raises (ChildResolverError n part (nodemap __get_part h n).*1)
         else Returns matches
     | o => o
     end) as Hstep.
  { intros Hdd Hhere. simpl. by rewrite Hdd, Hhere. }
  assert (part ≠ ".."%string → String.eqb part ".." = false) as Hdd
    by (intros ?; by apply String.eqb_neq).
  repeat split.
  - intros Hw. rewrite Hpure.
    destruct (wildcard_not_relative _ Hw) as [H1 H2]. rewrite Hstep by done.
    rewrite glob_loop_pure_nomatch.
    + by rewrite Hw.
    + intros [name c] [Hc ->]%nodemap_elem. by apply H.
  - intros Hw Hne Hhere. rewrite Hpure, Hstep by auto.
    rewrite glob_loop_pure_nomatch.
    + by rewrite Hw.
    + intros [name c] [Hc ->]%nodemap_elem. by apply H.
  - intros Hw e. rewrite Hpure.
    destruct (wildcard_not_relative _ Hw) as [H1 H2]. rewrite Hstep by done.
    destruct (glob_loop_pure _ part rest (nodemap __get_part h n) []) as [m|e'|] eqn:Hl.
    + by rewrite Hw, andb_false_r.
    + intros [= <-]. by eapply glob_loop_pure_no_ResolverError.
    + done.
  - intros Hw Hrest Hsub. rewrite Hpure.
    destruct (wildcard_not_relative _ Hw) as [H1 H2]. rewrite Hstep by done.
    rewrite glob_loop_pure_wildcard; try done.
    + rewrite Hw, andb_false_r. simpl. f_equal. f_equal.
      apply list_fmap_ext. intros i kc _. by rewrite Hpure.
    + intros [name c] [Hc ->]%nodemap_elem Hm. simpl in *.
      rewrite <- !Hpure. by apply Hsub.
  - intros Hw Hne Hhere Hrest c e Hget Hc He. rewrite Hpure, Hstep by auto.
    rewrite (glob_loop_pure_reraise _ _ _ _ _ c e); try done.
    by rewrite <- Hpure.
Qed.

Lemma glob_segment_errors_witness :
  cache_ok resolver_tree ∧
  let glob := λ nd parts, result (__glob resolver_name nd parts) resolver_tree in
  let matched := λ name, re_match (__translate "*") name in
  ((∀ c, c ∈ children resolver_tree 1 → matched (resolver_name c) = false) →
   (__is_wildcard "*" = true → glob (Some 1) ["*"; "sub1"]%string = Returns []) ∧
   (__is_wildcard "*" = false → "*"%string ≠ ".."%string → is_here "*" = false →
    glob (Some 1) ["*"; "sub1"]%string
    = Raises (ChildResolverError 1 "*" (nodemap resolver_name resolver_tree 1).*1))) ∧
  (__is_wildcard "*" = true →
   ∀ e, glob (Some 1) ["*"; "sub1"]%string = Raises e → is_ResolverError e = false) ∧
  (__is_wildcard "*" = true → ["sub1"%string] ≠ [] →
   (∀ c, c ∈ children resolver_tree 1 → matched (resolver_name c) = true →
         (∃ l, glob (Some c) ["sub1"%string] = Returns l) ∨
         (∃ e, glob (Some c) ["sub1"%string] = Raises e ∧ is_ResolverError e = true)) →
   glob (Some 1) ["*"; "sub1"]%string
   = Returns (concat ((λ kc : string * node,
                         if matched kc.1
                         then match glob (Some kc.2) ["sub1"%string] with
                              | Returns l => l
                              | _ => []
                              end
                         else []) <$> nodemap resolver_name resolver_tree 1))) ∧
  (__is_wildcard "*" = false → "*"%string ≠ ".."%string → is_here "*" = false →
   ["sub1"%string] ≠ [] →
   ∀ c e, od_get "*" (nodemap resolver_name resolver_tree 1) = Some c →
          glob (Some c) ["sub1"%string] = Raises e → is_ResolverError e = true →
          glob (Some 1) ["*"; "sub1"]%string = Raises e).
Proof.
  assert (cache_ok resolver_tree) as Hok
    by (apply cache_ok_empty; vm_compute; reflexivity).
  split; [exact Hok|].
  exact (glob_segment_errors resolver_name resolver_tree 1 "*" ["sub1"%string] Hok).
Defined.

(** The docstring examples of [Resolver.glob] and [Resolver.get], and
    a wildcard above a child that lacks the next segment. *)
Example glob_docstring :
  result (glob resolver_name 6 1 "sub0/sub?") resolver_tree = Returns [3; 4] ∧
  result (glob resolver_name 6 5 ".././*") resolver_tree = Returns [2; 5] ∧
  result (glob resolver_name 6 1 "*/*") resolver_tree = Returns [3; 4; 6] ∧
  result (glob resolver_name 6 1 "*/sub0") resolver_tree = Returns [3; 6] ∧
  result (glob resolver_name 6 1 "*/sub1") resolver_tree = Returns [4] ∧
  result (glob resolver_name 6 1 "sub1/sub1") resolver_tree
    = Raises (ChildResolverError 5 "sub1" ["sub0"%string]) ∧
  result (glob resolver_name 6 1 "bar*") resolver_tree = Returns [] ∧
  result (glob resolver_name 6 1 "sub2") resolver_tree
    = Raises (ChildResolverError 1 "sub2" ["sub0"; "sub1"]%string) ∧
  result (glob resolver_name 6 3 "/top/*") resolver_tree = Returns [2; 5] ∧
  result (glob resolver_name 6 3 "/") resolver_tree
    = Raises (ResolverError 1 "" (RootMissing "top")) ∧
  result (glob resolver_name 6 3 "/bar") resolver_tree
    = Raises (ResolverError 1 "" (UnknownRoot "bar" "top")).
Proof. vm_compute. repeat split; reflexivity. Qed.

Example get_docstring :
  result (get resolver_name 6 1 "sub0/sub1") resolver_tree = Returns (Some 4) ∧
  result (get resolver_name 6 5 "..") resolver_tree = Returns (Some 1) ∧
  result (get resolver_name 6 5 "../sub0/sub1") resolver_tree = Returns (Some 4) ∧
  result (get resolver_name 6 5 ".") resolver_tree = Returns (Some 5) ∧
  result (get resolver_name 6 5 "") resolver_tree = Returns (Some 5) ∧
  result (get resolver_name 6 1 "sub2") resolver_tree
    = Raises (ChildResolverError 1 "sub2" ["sub0"; "sub1"]%string) ∧
  result (get resolver_name 6 3 "/top") resolver_tree = Returns (Some 1) ∧
  result (get resolver_name 6 3 "/top/sub0") resolver_tree = Returns (Some 2) ∧
  result (get resolver_name 6 3 "/") resolver_tree
    = Raises (ResolverError 1 "" (RootMissing "top")) ∧
  result (get resolver_name 6 3 "/bar") resolver_tree
    = Raises (ResolverError 1 "" (UnknownRoot "bar" "top")).
Proof. vm_compute. repeat split; reflexivity. Qed.

(** ** Resolver: [..] at a root *)

Lemma get_loop_None gp parts h :
  get_loop gp None parts h
  = (if forallb is_here parts then Returns None else Raises AttributeError, h).
Proof.
  induction parts as [|part parts IH]; simpl; [done|].
  destruct (String.eqb_spec part "..") as [->|Hne]; [done|].
  by destruct (is_here part).
Qed.

Lemma startswith_slash_split path :
  startswith_slash path = true → ∃ l, split_slash path = EmptyString :: l.
Proof.
  destruct path as [|c path]; [done|]. simpl. intros ->. eauto.
Qed.

(** C5, as the code has it.  At a node without parent a [..] segment
    does not fail: the current node becomes [None].  If only [""] and
    ["."] segments follow, [get] returns [None]; otherwise the next
    [..] or name raises [AttributeError].  No [ResolverError] is
    raised. *)
Theorem get_dotdot_at_root (__get_part : node → string) (h : heap) (n : node) :
  parent h n = None →
  (∀ rest,
     result (get_loop __get_part (Some n) (".."%string :: rest)) h
     = if forallb is_here rest then Returns None else Raises AttributeError) ∧
  (∀ fuel path rest,
     split_slash path = ".."%string :: rest →
     result (get __get_part fuel n path) h
     = if forallb is_here rest then Returns None else Raises AttributeError).
Proof.
  intros Hroot.
  assert (∀ rest,
     result (get_loop __get_part (Some n) (".."%string :: rest)) h
     = if forallb is_here rest then Returns None else Raises AttributeError) as Hloop.
  { intros rest. unfold result. simpl.
    unfold mbind, M_bind, bind, read. rewrite Hroot. by rewrite get_loop_None. }
  split; [done|]. intros fuel path rest Hsplit.
  unfold result, get, __start.
  destruct (startswith_slash path) eqn:Hs.
  { apply startswith_slash_split in Hs as [l Hl]. congruence. }
  rewrite Hsplit. apply Hloop.
Qed.

Lemma get_dotdot_at_root_witness :
  parent resolver_tree 1 = None ∧
  (∀ rest,
     result (get_loop resolver_name (Some 1) (".."%string :: rest)) resolver_tree
     = if forallb is_here rest then Returns None else Raises AttributeError) ∧
  (∀ fuel path rest,
     split_slash path = ".."%string :: rest →
     result (get resolver_name fuel 1 path) resolver_tree
     = if forallb is_here rest then Returns None else Raises AttributeError).
Proof.
  assert (parent resolver_tree 1 = None) as Hroot by (vm_compute; reflexivity).
  split; [exact Hroot|].
  exact (get_dotdot_at_root resolver_name resolver_tree 1 Hroot).
Defined.

(** C5 as stated fails: at the root top, [get(top, "..")] returns
    [None] without any error, and [get(top, "../sub0")] raises
    [AttributeError], which is not a [ResolverError]. *)
Lemma get_dotdot_past_root :
  parent resolver_tree 1 = None ∧
  result (get resolver_name 6 1 "..") resolver_tree = Returns None ∧
  result (get resolver_name 6 1 "../sub0") resolver_tree = Raises AttributeError ∧
  is_ResolverError AttributeError = false.
Proof. vm_compute. repeat split; reflexivity. Qed.

(** ** Resolver: the empty path and [.] *)

(** C6.  [get(n, "")] and [get(n, ".")] return [n].  [glob(n, "")] and
    [glob(n, ".")] do not return [[n]]: after the last segment
    [__glob] calls itself with no segments left and [parts[0]] raises
    [IndexError]. *)
Theorem get_here_glob_here (__get_part : node → string) (fuel : nat)
    (h : heap) (n : node) :
  result (get __get_part fuel n "") h = Returns (Some n) ∧
  result (get __get_part fuel n ".") h = Returns (Some n) ∧
  result (glob __get_part fuel n "") h = Raises IndexError ∧
  result (glob __get_part fuel n ".") h = Raises IndexError.
Proof. repeat split. Qed.

(** ** Resolver: wildcards and the separator *)

Lemma re_match_star name : re_match (__translate "*") name = true.
Proof. simpl. induction name as [|c name IH]; [done|]. by rewrite IH. Qed.

(** C7.  A pattern without wildcard matches exactly the name equal to
    it, so literal characters and both anchors are as claimed.  But the
    translated [*] matches every name and the translated [?] every
    single character, the separator included: under the node top the
    child named [a/b] is found by [*], by [a?b] and by [a*]. *)
Theorem wildcard_matches_separator :
  (∀ part name, __is_wildcard part = false →
                re_match (__translate part) name = String.eqb part name) ∧
  (∀ name, re_match (__translate "*") name = true) ∧
  (∀ c, re_match (__translate "?") (String c EmptyString) = true) ∧
  (∀ name, result (__match name "*") empty_heap = Returns true) ∧
  slash_name 2 = "a/b"%string ∧ children slash_tree 1 = [2] ∧
  result (glob slash_name 2 1 "*") slash_tree = Returns [2] ∧
  result (glob slash_name 2 1 "a?b") slash_tree = Returns [2] ∧
  result (glob slash_name 2 1 "a*") slash_tree = Returns [2].
Proof.
  split; [apply re_match_literal|].
  split; [apply re_match_star|]. split; [done|]. split.
  { intros name. unfold result.
    destruct (__match_eq name "*" empty_heap empty_heap_cache_ok) as (h' & -> & _).
    simpl. apply f_equal, re_match_star. }
  vm_compute. repeat split; reflexivity.
Qed.

(** ** The invariants are kept by every assignment that returns *)

Lemma set_parent_success_children fuel self value h h' :
  set_parent fuel self value h = (Returns (), h') →
  (parent h self = value ∧ ∀ n, _children h' n = _children h n) ∨
  (parent h self ≠ value ∧
   (∀ p, parent h self = Some p → self ∈ _children h p) ∧
   ∃ mid : node → list node,
     (∀ n, mid n = if bool_decide (parent h self = Some n)
                   then list_remove_first self (_children h n)
                   else _children h n) ∧
     (∀ n, _children h' n = if bool_decide (value = Some n)
                            then mid n ++ [self] else mid n) ∧
     (∀ v, value = Some v → self ∉ mid v)).
Proof.
  destruct value as [v|], (parent h self) as [p|] eqn:Hp.
  - destruct (decide (p = v)) as [->|Hne].
    + rewrite <- Hp at 1. rewrite set_parent_same_eq. intros [= <-]. by left.
    + setter_cases; rewrite ?Hp; setter_cases; try congruence.
      intros [= <-]. right. split; [congruence|]. split; [by intros ? [= <-]|].
      eexists. split; [done|]. split.
      * intros n. unfold _children at 1; simpl.
        destruct (decide (v = n)) as [->|Hvn].
        -- rewrite lookup_insert_eq; simpl.
           rewrite bool_decide_eq_true_2 by done.
           rewrite bool_decide_eq_false_2 by congruence.
           unfold _children at 1; simpl. by rewrite lookup_insert_ne.
        -- rewrite lookup_insert_ne by done.
           rewrite (bool_decide_eq_false_2 (Some v = Some n)) by congruence.
           destruct (decide (p = n)) as [->|Hpn].
           ++ rewrite lookup_insert_eq; simpl. by rewrite bool_decide_eq_true_2.
           ++ rewrite lookup_insert_ne by done.
              by rewrite bool_decide_eq_false_2 by congruence.
      * intros v' [= <-]. rewrite bool_decide_eq_false_2 by congruence.
        match goal with H : _ ∉ _children (Heap _ _ _ _) _ |- _ =>
          unfold _children in H; simpl in H;
          rewrite lookup_insert_ne in H by done end.
        done.
  - setter_cases; rewrite ?Hp; setter_cases; try congruence.
    intros [= <-]. right. split; [done|]. split; [done|].
    eexists. split; [done|]. split.
    + intros n. unfold _children at 1; simpl.
      destruct (decide (v = n)) as [->|Hvn].
      * rewrite lookup_insert_eq; simpl. by rewrite bool_decide_eq_true_2.
      * rewrite lookup_insert_ne by done.
        by rewrite bool_decide_eq_false_2 by congruence.
    + by intros v' [= <-].
  - setter_cases; rewrite ?Hp; setter_cases; try congruence.
    intros [= <-]. right. split; [done|]. split; [by intros ? [= <-]|].
    eexists. split; [done|]. split; [|done].
    intros n. unfold _children at 1; simpl.
    destruct (decide (p = n)) as [->|Hpn].
    + rewrite lookup_insert_eq; simpl. by rewrite bool_decide_eq_true_2.
    + rewrite lookup_insert_ne by done.
      by rewrite bool_decide_eq_false_2 by congruence.
  - rewrite <- Hp at 1. rewrite set_parent_same_eq. intros [= <-]. by left.
Qed.

Lemma set_parent_wf fuel self value h :
  wf h →
  result (set_parent fuel self value) h = Returns () →
  wf (run (set_parent fuel self value) h).
Proof.
  intros Hwf. pose proof (set_parent_acyclic fuel self value h (wf_acyclic _ Hwf)) as Hac'.
  destruct Hwf as [Hac Hreg Hown Honce]. revert Hac'. unfold result, run.
  destruct (set_parent fuel self value h) as [o h'] eqn:Hset; simpl.
  intros Hac' ->.
  destruct (set_parent_success _ _ _ _ _ Hset) as [Hpar _].
  assert (parent h' self = value) as Hself
    by (unfold parent; by rewrite Hpar, lookup_insert_eq).
  assert (∀ n, n ≠ self → parent h' n = parent h n) as Hother
    by (intros n Hn; unfold parent; by rewrite Hpar, lookup_insert_ne).
  destruct (set_parent_success_children _ _ _ _ _ Hset)
    as [[Hsame Hch]|(Hdiff & Hin & mid & Hmid & Hch & Hfresh)].
  - assert (∀ n, parent h' n = parent h n) as Hpeq.
    { intros n. destruct (decide (n = self)) as [->|]; [congruence|auto]. }
    split; [done| | |].
    + intros n p. rewrite Hpeq, Hch. apply Hreg.
    + intros n p. rewrite Hpeq, Hch. apply Hown.
    + intros p. rewrite Hch. apply Honce.
  - assert (∀ n q, n ≠ self → n ∈ mid q ↔ n ∈ _children h q) as Hmid_other.
    { intros n q Hn. rewrite Hmid. case_bool_decide; [|done].
      by apply list_remove_first_other. }
    assert (∀ q, NoDup (mid q) ∧ (parent h self = Some q → self ∉ mid q)) as Hmid_nd.
    { intros q. rewrite Hmid. case_bool_decide as Hq.
      - split; [by apply list_remove_first_NoDup|].
        intros _. by apply list_remove_first_NoDup.
      - done. }
    assert (∀ q, self ∈ mid q → False) as Hself_mid.
    { intros q Hq. destruct (decide (parent h self = Some q)) as [Hp|Hp].
      - by apply (Hmid_nd q).
      - rewrite Hmid, bool_decide_eq_false_2 in Hq by done.
        apply Hown in Hq. congruence. }
    split; [done| | |].
    + intros n p Hn. rewrite Hch.
      destruct (decide (n = self)) as [->|Hne].
      * rewrite Hself in Hn. rewrite bool_decide_eq_true_2 by done.
        apply elem_of_app. right. left.
      * rewrite Hother in Hn by done. apply Hreg in Hn.
        assert (n ∈ mid p) by (by apply Hmid_other).
        case_bool_decide; [apply elem_of_app; by left|done].
    + intros n p. rewrite Hch. intros Hn.
      assert (n = self ∧ value = Some p ∨ n ∈ mid p) as [[-> Hv]|Hn'].
      { case_bool_decide; [|by right].
        apply elem_of_app in Hn as [?| ->%list_elem_of_singleton]; auto. }
      * congruence.
      * assert (n ≠ self) as Hne by (intros ->; by eapply Hself_mid).
        rewrite Hother by done. apply Hown. by apply Hmid_other.
    + intros p. rewrite Hch. case_bool_decide as Hv; [|apply Hmid_nd].
      apply NoDup_app. split; [apply Hmid_nd|]. split; [|apply NoDup_singleton].
      intros x Hx ->%list_elem_of_singleton. by eapply Hself_mid.
Qed.

Lemma empty_heap_wf : wf empty_heap.
Proof.
  split.
  - apply empty_heap_acyclic.
  - intros n p. unfold parent; simpl. by rewrite lookup_empty.
  - intros n p. unfold _children; simpl. rewrite lookup_empty; simpl. by inversion 1.
  - intros p. unfold _children; simpl. rewrite lookup_empty. constructor.
Qed.

(** A [LoopError] needs the loop: on any heap, if [self.parent = v]
    raises it, [v] is [self] or [self] is on the path of [v]. *)
Lemma set_parent_LoopError_only_if fuel self v h :
  result (set_parent fuel self (Some v)) h = Raises LoopError →
  v = self ∨ ∃ vpath, _path fuel h v = Some vpath ∧ self ∈ vpath.
Proof.
  unfold result.
  destruct (parent h self) as [p|] eqn:Hp;
    setter_cases; rewrite ?Hp; setter_cases; try done; eauto.
Qed.


(** * Further properties of the code *)

(** ** The setter: invariants, frame and notifications *)

(** X1.  An assignment to [parent] that returns keeps the invariants of
    the data model: parent chains end, a node is in the children of
    its parent, a child points to its parent, and no node is listed
    twice. *)
Theorem assignment_keeps_invariants (fuel : nat) (self : node)
    (value : option node) (h : heap) :
  wf h →
  result (set_parent fuel self value) h = Returns () →
  wf (run (set_parent fuel self value) h).
Proof. apply set_parent_wf. Qed.

Lemma assignment_keeps_invariants_witness :
  wf udo_tree ∧
  result (set_parent 3 3 (Some 1)) udo_tree = Returns () ∧
  wf (run (set_parent 3 3 (Some 1)) udo_tree).
Proof.
  assert (wf udo_tree) as Hwf by (apply wf_check_sound; vm_compute; reflexivity).
  assert (result (set_parent 3 3 (Some 1)) udo_tree = Returns ()) as Hres
    by (vm_compute; reflexivity).
  split; [exact Hwf|]. split; [exact Hres|].
  exact (assignment_keeps_invariants 3 3 (Some 1) udo_tree Hwf Hres).
Defined.

(** X2.  Whatever its outcome, an assignment to [parent] never closes a
    cycle of parent links: if every parent chain ended before, every
    parent chain ends afterwards. *)
Theorem assignment_keeps_acyclic (fuel : nat) (self : node)
    (value : option node) (h : heap) :
  acyclic h → acyclic (run (set_parent fuel self value) h).
Proof. apply set_parent_acyclic. Qed.

Lemma assignment_keeps_acyclic_witness :
  acyclic udo_tree ∧ acyclic (run (set_parent 3 1 (Some 3)) udo_tree).
Proof.
  assert (acyclic udo_tree) as Hac
    by (apply acyclic_check_sound; vm_compute; reflexivity).
  split; [exact Hac|].
  exact (assignment_keeps_acyclic 3 1 (Some 3) udo_tree Hac).
Defined.

(** X3.  On a heap that satisfies the invariants the two "Tree internal
    data is corrupt." assertions never fire: with enough fuel an
    assignment returns or raises [LoopError], and [self.parent = None]
    always returns. *)
Theorem assignment_outcomes (h : heap) (self : node) (value : option node) :
  wf h →
  ∃ fuel0, ∀ fuel, fuel0 ≤ fuel →
    (result (set_parent fuel self value) h = Returns () ∨
     result (set_parent fuel self value) h = Raises LoopError) ∧
    (value = None → result (set_parent fuel self value) h = Returns ()).
Proof.
  intros Hwf. destruct value as [v|].
  - destruct (wf_acyclic _ Hwf v) as [vpath Hv].
    exists (length vpath). intros fuel Hfuel. split; [|done].
    rewrite (set_parent_LoopError_wf h self v vpath fuel Hwf Hv Hfuel).
    case_bool_decide; auto.
  - exists 0. intros fuel _.
    assert (result (set_parent fuel self None) h = Returns ()) as Hres; [|auto].
    unfold result. destruct (parent h self) as [p|] eqn:Hp.
    + by rewrite (set_parent_None_eq h self p fuel Hp (wf_registered _ Hwf _ _ Hp)).
    + rewrite <- Hp at 1. by rewrite set_parent_same_eq.
Qed.

Lemma assignment_outcomes_witness :
  wf udo_tree ∧
  ∃ fuel0, ∀ fuel, fuel0 ≤ fuel →
    (result (set_parent fuel 2 (Some 3)) udo_tree = Returns () ∨
     result (set_parent fuel 2 (Some 3)) udo_tree = Raises LoopError) ∧
    (Some 3 = None → result (set_parent fuel 2 (Some 3)) udo_tree = Returns ()).
Proof.
  assert (wf udo_tree) as Hwf by (apply wf_check_sound; vm_compute; reflexivity).
  split; [exact Hwf|]. exact (assignment_outcomes udo_tree 2 (Some 3) Hwf).
Defined.

(** X4.  An assignment [self.parent = value] touches nothing else: on
    any heap and with any outcome, every other node keeps its parent,
    every node other than the old and the new parent keeps its
    children, and the pattern cache is as it was. *)
Theorem assignment_frame (fuel : nat) (self : node) (value : option node)
    (h : heap) :
  let h' := run (set_parent fuel self value) h in
  (∀ x, x ≠ self → parent h' x = parent h x) ∧
  (∀ x, parent h self ≠ Some x → value ≠ Some x →
        children h' x = children h x) ∧
  _match_cache h' = _match_cache h.
Proof.
  intros h'. subst h'. split; [|split; [|apply set_parent_cache]].
  - intros x Hx. unfold run.
    destruct value as [v|], (parent h self) as [p|] eqn:Hp;
      setter_cases; rewrite ?Hp; setter_cases;
      unfold parent; simpl; rewrite ?lookup_insert_ne by done; done.
  - intros x Hold Hnew. unfold run, children.
    destruct value as [v|], (parent h self) as [p|] eqn:Hp;
      setter_cases; rewrite ?Hp; setter_cases;
      unfold _children; simpl; rewrite ?lookup_insert_ne by congruence; done.
Qed.

(** X5.  The notification slots an assignment that returns has called,
    in order: none when the value is the current parent; otherwise
    [_pre_detach], [_post_detach] with the old parent if there was one,
    then [_pre_attach], [_post_attach] with the new parent if there is
    one. *)
Theorem assignment_notifications (fuel : nat) (self : node)
    (value : option node) (h : heap) :
  result (set_parent fuel self value) h = Returns () →
  hooks (run (set_parent fuel self value) h) =
    hooks h ++
    (if bool_decide (parent h self = value) then []
     else match parent h self with
          | Some p => [PreDetach self p; PostDetach self p]
          | None => []
          end ++
          match value with
          | Some v => [PreAttach self v; PostAttach self v]
          | None => []
          end).
Proof.
  unfold result, run.
  destruct value as [v|], (parent h self) as [p|] eqn:Hp;
    setter_cases; rewrite ?Hp; setter_cases; try done;
    intros _; rewrite ?app_nil_r, <- ?app_assoc; simpl; try done.
  all: try (exfalso; congruence).
Qed.

Lemma assignment_notifications_witness :
  result (set_parent 3 3 (Some 1)) udo_tree = Returns () ∧
  hooks (run (set_parent 3 3 (Some 1)) udo_tree) =
    hooks udo_tree ++
    (if bool_decide (parent udo_tree 3 = Some 1) then []
     else match parent udo_tree 3 with
          | Some p => [PreDetach 3 p; PostDetach 3 p]
          | None => []
          end ++
          match Some 1 with
          | Some v => [PreAttach 3 v; PostAttach 3 v]
          | None => []
          end).
Proof.
  assert (result (set_parent 3 3 (Some 1)) udo_tree = Returns ()) as Hres
    by (vm_compute; reflexivity).
  split; [exact Hres|].
  exact (assignment_notifications 3 3 (Some 1) udo_tree Hres).
Defined.

(** ** Paths, depth, root and siblings *)

Lemma Path_links h n l :
  Path h n l →
  ∀ i x y, l !! i = Some x → l !! S i = Some y → parent h y = Some x.
Proof.
  induction 1 as [n Hn|n p l Hp Hl IH]; intros i x y Hx Hy.
  { by destruct i. }
  destruct (decide (S i < length l)) as [Hlt|Hge].
  - rewrite lookup_app_l in Hx by lia. rewrite lookup_app_l in Hy by lia. eauto.
  - apply lookup_lt_Some in Hy as Hlen. rewrite length_app in Hlen; simpl in Hlen.
    assert (S i = length l) as Hi by lia.
    rewrite lookup_app_l in Hx by lia.
    rewrite Hi, lookup_app_r, Nat.sub_diag in Hy by lia. injection Hy as <-.
    pose proof (Path_last _ _ _ Hl) as Hlast. rewrite last_lookup in Hlast.
    replace (pred (length l)) with i in Hlast by lia. congruence.
Qed.

Lemma Path_step_inv h n p l :
  Path h n l → parent h n = Some p → ∃ lp, Path h p lp ∧ l = lp ++ [n].
Proof.
  destruct 1 as [n Hn|n p' lp Hp' Hlp]; intros Hp; [congruence|].
  assert (p' = p) as -> by congruence. eauto.
Qed.

(** X6.  What [path] returns: the node itself comes last, the first
    node has no parent, every node is the parent of the next one, and
    no node occurs twice. *)
Theorem path_shape (fuel : nat) (h : heap) (self : node) (l : list node) :
  _path fuel h self = Some l →
  last l = Some self ∧
  (∃ r, head l = Some r ∧ parent h r = None) ∧
  (∀ i x y, l !! i = Some x → l !! S i = Some y → parent h y = Some x) ∧
  NoDup l.
Proof.
  intros Hl. apply _path_Path in Hl. split; [by eapply Path_last|]. split.
  - destruct (Path_head _ _ _ Hl) as (r & l' & -> & Hr). by exists r.
  - split; [by eapply Path_links|by eapply Path_NoDup].
Qed.

Lemma path_shape_witness :
  _path 9 walker_tree 6 = Some [1; 2; 4; 6] ∧
  last [1; 2; 4; 6] = Some 6 ∧
  (∃ r, head [1; 2; 4; 6] = Some r ∧ parent walker_tree r = None) ∧
  (∀ i x y, [1; 2; 4; 6] !! i = Some x → [1; 2; 4; 6] !! S i = Some y →
            parent walker_tree y = Some x) ∧
  NoDup [1; 2; 4; 6].
Proof.
  assert (_path 9 walker_tree 6 = Some [1; 2; 4; 6]) as Hp
    by (vm_compute; reflexivity).
  split; [exact Hp|]. exact (path_shape 9 walker_tree 6 [1; 2; 4; 6] Hp).
Defined.

Lemma _path_nonempty fuel h n l : _path fuel h n = Some l → l ≠ [].
Proof.
  intros Hl Hnil. apply _path_Path, Path_self in Hl. subst l. by inversion Hl.
Qed.

(** X7.  The ancestors of a node are the path of its parent and its
    depth is one more than the depth of its parent; a node without
    parent has no ancestors and depth 0. *)
Theorem anchestors_depth_step (fuel : nat) (h : heap) (self : node) :
  anchestors (S fuel) h self =
    match parent h self with
    | Some p => _path fuel h p
    | None => Some []
    end ∧
  depth (S fuel) h self =
    match parent h self with
    | Some p => S <$> depth fuel h p
    | None => Some 0
    end.
Proof.
  unfold anchestors, depth. rewrite _path_S.
  destruct (parent h self) as [p|]; [|done].
  destruct (_path fuel h p) as [l|] eqn:Hl; [|done]. simpl.
  pose proof (_path_nonempty _ _ _ _ Hl) as Hne.
  rewrite length_app; simpl. split; f_equal.
  - replace (length l + 1 - 1) with (length l) by lia. by rewrite take_app_length.
  - destruct l; [done|]. simpl. lia.
Qed.

(** X8.  On a heap whose parent chains end, [root] returns, with enough
    fuel, a node without parent that is the first node of the path, is
    its own root, and is the root of the parent as well. *)
Theorem root_is_root (h : heap) (self : node) :
  acyclic h →
  ∃ fuel0 r, ∀ fuel, fuel0 ≤ fuel →
    result (root fuel self) h = Returns r ∧
    parent h r = None ∧
    head <$> _path fuel h self = Some (Some r) ∧
    result (root fuel r) h = Returns r ∧
    (∀ p, parent h self = Some p → result (root fuel p) h = Returns r).
Proof.
  intros Hac. destruct (Hac self) as [l Hl].
  destruct (Path_head _ _ _ Hl) as (r & l' & -> & Hr).
  exists (length (r :: l')), r. intros fuel Hfuel.
  destruct (root_eq _ _ _ _ Hl Hfuel) as (r' & ? & [= <- <-] & Hroot).
  split; [unfold result; by rewrite Hroot|]. split; [done|].
  split; [by rewrite (Path_path _ _ _ Hl _ Hfuel)|]. split.
  - unfold result, root; munfold. by rewrite Hr.
  - intros p Hp. destruct (Path_step_inv _ _ _ _ Hl Hp) as (lp & Hlp & Heq).
    assert (length lp ≤ fuel) as Hfp.
    { apply (f_equal length) in Heq. rewrite length_app in Heq. simpl in *. lia. }
    destruct (root_eq _ _ _ _ Hlp Hfp) as (rp & lp' & -> & Hrootp).
    unfold result. rewrite Hrootp. simpl. simpl in Heq. congruence.
Qed.

Lemma root_is_root_witness :
  acyclic walker_tree ∧
  ∃ fuel0 r, ∀ fuel, fuel0 ≤ fuel →
    result (root fuel 6) walker_tree = Returns r ∧
    parent walker_tree r = None ∧
    head <$> _path fuel walker_tree 6 = Some (Some r) ∧
    result (root fuel r) walker_tree = Returns r ∧
    (∀ p, parent walker_tree 6 = Some p →
          result (root fuel p) walker_tree = Returns r).
Proof.
  assert (acyclic walker_tree) as Hac
    by (apply acyclic_check_sound; vm_compute; reflexivity).
  split; [exact Hac|]. exact (root_is_root walker_tree 6 Hac).
Defined.

(** X9.  On a heap that satisfies the invariants the siblings of a node
    are exactly the other nodes with the same parent, each listed
    once; a node without parent has none. *)
Theorem siblings_same_parent (h : heap) (self : node) :
  wf h →
  (∀ m, m ∈ siblings h self ↔
        m ≠ self ∧ ∃ p, parent h self = Some p ∧ parent h m = Some p) ∧
  NoDup (siblings h self) ∧
  (parent h self = None → siblings h self = []).
Proof.
  intros [Hac Hreg Hown Honce]. unfold siblings.
  destruct (parent h self) as [p|] eqn:Hp.
  - split; [|split; [|done]].
    + intros m. rewrite list_elem_of_filter. split.
      * intros [Hne Hin]. split; [done|]. exists p. split; [done|]. by apply Hown.
      * intros (Hne & p' & [= <-] & Hm). split; [done|]. by apply Hreg.
    + apply NoDup_filter, Honce.
  - split; [|split; [constructor|done]]. intros m. split; [by inversion 1|].
    by intros (_ & p & ? & _).
Qed.

Lemma siblings_same_parent_witness :
  wf dan_tree ∧
  (∀ m, m ∈ siblings dan_tree 3 ↔
        m ≠ 3 ∧ ∃ p, parent dan_tree 3 = Some p ∧ parent dan_tree m = Some p) ∧
  NoDup (siblings dan_tree 3) ∧
  (parent dan_tree 3 = None → siblings dan_tree 3 = []).
Proof.
  assert (wf dan_tree) as Hwf by (apply wf_check_sound; vm_compute; reflexivity).
  split; [exact Hwf|]. exact (siblings_same_parent dan_tree 3 Hwf).
Defined.

(** ** Subtrees *)

Lemma mapM_mono {A B} (f g : A → option B) l k :
  (∀ x y, x ∈ l → f x = Some y → g x = Some y) →
  mapM f l = Some k → mapM g l = Some k.
Proof.
  rewrite !mapM_Some. intros Hfg Hl.
  induction Hl as [|x y l k Hxy _ IH]; constructor.
  - apply Hfg; [left|done].
  - apply IH. intros x' y' Hx'. apply Hfg. by right.
Qed.

Lemma subtree_S d h n :
  subtree (S d) h n
  = (λ ls, n :: concat ls) <$> mapM (subtree d h) (children h n).
Proof. done. Qed.

Lemma subtree_mono d d' h n l :
  subtree d h n = Some l → d ≤ d' → subtree d' h n = Some l.
Proof.
  revert d' n l. induction d as [|d IH]; intros [|d'] n l Hl Hd; try done; [lia|].
  simpl in *. destruct (mapM (subtree d h) (children h n)) as [ls|] eqn:Hls; [|done].
  rewrite (mapM_mono _ (subtree d' h) _ _ (λ x y _ Hx, IH d' x y Hx ltac:(lia)) Hls).
  done.
Qed.

(** A path is no longer than the number of nodes with a parent
    attribute, plus one. *)
Lemma Path_length_bound h n l : Path h n l → length l ≤ S (size (_parent h)).
Proof.
  intros Hl. destruct (Path_head _ _ _ Hl) as (r & l' & -> & Hr). simpl.
  apply le_n_S. pose proof (Path_NoDup _ _ _ Hl) as Hnd.
  apply NoDup_cons in Hnd as [_ Hnd].
  rewrite <- (size_dom (D := gset node)), <- (size_list_to_set (C := gset node) l') by done.
  apply subseteq_size. intros x Hx%elem_of_list_to_set.
  apply elem_of_dom. apply list_elem_of_lookup in Hx as [i Hi].
  assert (∃ y, (r :: l') !! i = Some y) as [y Hy].
  { apply lookup_lt_is_Some. apply lookup_lt_Some in Hi. simpl. lia. }
  pose proof (Path_links _ _ _ Hl i y x Hy Hi) as Hp.
  unfold parent in Hp. destruct (_parent h !! x); [eauto|done].
Qed.

Lemma subtree_terminates h :
  acyclic h → owned h →
  ∀ m n pn, Path h n pn → S (size (_parent h)) - length pn ≤ m →
            is_Some (subtree (S m) h n).
Proof.
  intros Hac Hown. induction m as [|m IH]; intros n pn Hpn Hm; rewrite subtree_S.
  - assert (children h n = []) as ->; [|by eexists].
    destruct (children h n) as [|c cs] eqn:Hcs; [done|exfalso].
    assert (parent h c = Some n) as Hc by (apply Hown; unfold children in Hcs; rewrite Hcs; left).
    pose proof (Path_length_bound _ _ _ (Path_step _ _ _ _ Hc Hpn)) as Hb.
    rewrite length_app in Hb; simpl in Hb. lia.
  - assert (is_Some (mapM (subtree (S m) h) (children h n))) as [ls Hls];
      [|rewrite Hls; by eexists].
    apply mapM_is_Some_2, Forall_forall. intros c Hc.
    change (is_Some (subtree (S m) h c)).
    assert (parent h c = Some n) as Hpc by (by apply Hown).
    pose proof (Path_length_bound _ _ _ (Path_step _ _ _ _ Hpc Hpn)) as Hb.
    apply (IH c (pn ++ [c])); [by eapply Path_step|].
    rewrite length_app in *; simpl in *. lia.
Qed.

Lemma subtree_returns h n :
  acyclic h → owned h → ∃ l, subtree (S (S (size (_parent h)))) h n = Some l.
Proof.
  intros Hac Hown. destruct (Hac n) as [pn Hpn].
  destruct (subtree_terminates h Hac Hown (S (size (_parent h))) n pn Hpn ltac:(lia))
    as [l Hl]. eauto.
Qed.

Lemma child_on_path h c n x px :
  parent h c = Some n → Path h x px → c ∈ px →
  ∃ pn l2, Path h n pn ∧ px = pn ++ c :: l2.
Proof.
  intros Hc Hpx [l1 [l2 ->]]%list_elem_of_split.
  pose proof (Path_prefix _ _ _ _ _ Hpx) as Hpc.
  destruct (Path_step_inv _ _ _ _ Hpc Hc) as (pn & Hpn & Heq).
  apply app_inj_tail in Heq as [-> _]. eauto.
Qed.

Lemma subtree_closed d h n l :
  subtree d h n = Some l →
  n ∈ l ∧ ∀ x c, x ∈ l → c ∈ children h x → c ∈ l.
Proof.
  revert n l. induction d as [|d IH]; intros n l; simpl; [done|].
  destruct (mapM (subtree d h) (children h n)) as [ls|] eqn:Hls; [|done].
  simpl. intros [= <-]. apply mapM_Some in Hls.
  split; [left|]. intros x c Hx Hc.
  assert (∀ y, y ∈ children h n → ∃ ly, ly ∈ ls ∧ subtree d h y = Some ly) as Hsub.
  { intros y Hy. apply list_elem_of_lookup in Hy as [i Hi].
    destruct (Forall2_lookup_l _ _ _ _ _ Hls Hi) as (ly & Hly & Hy).
    exists ly. split; [|done]. apply list_elem_of_lookup. eauto. }
  right. apply list_elem_of_In, in_concat.
  apply elem_of_cons in Hx as [->|Hx].
  - destruct (Hsub c Hc) as (lc & Hlc & Hc'). exists lc.
    split; [by apply list_elem_of_In|]. apply list_elem_of_In.
    by apply (IH _ _ Hc').
  - apply list_elem_of_In, in_concat in Hx as (lx & Hlx & Hx).
    apply list_elem_of_In in Hlx, Hx.
    apply list_elem_of_lookup in Hlx as [i Hi].
    destruct (Forall2_lookup_r _ _ _ _ _ Hls Hi) as (y & Hy & Hsy).
    exists lx. split; [apply list_elem_of_In, list_elem_of_lookup; eauto|].
    apply list_elem_of_In. by eapply (IH _ _ Hsy).
Qed.

(** A list that holds [n] and is closed under [children] holds every
    node with [n] on its path. *)
Lemma closed_holds_below h n (l : list node) x px :
  registered h → n ∈ l → (∀ y c, y ∈ l → c ∈ children h y → c ∈ l) →
  Path h x px → n ∈ px → x ∈ l.
Proof.
  intros Hreg Hn Hclosed Hpx. induction Hpx as [x Hx|x p pl Hp Hpl IH]; intros Hin.
  - by apply list_elem_of_singleton in Hin as ->.
  - apply elem_of_app in Hin as [Hin|Hin].
    + eapply Hclosed; [by apply IH|]. by apply Hreg.
    + by apply list_elem_of_singleton in Hin as ->.
Qed.

Lemma subtree_elem d h n l x :
  acyclic h → owned h →
  subtree d h n = Some l → x ∈ l → ∃ px, Path h x px ∧ n ∈ px.
Proof.
  intros Hac Hown. revert n l x. induction d as [|d IH]; intros n l x; simpl; [done|].
  destruct (mapM (subtree d h) (children h n)) as [ls|] eqn:Hls; [|done].
  simpl. intros [= <-]. apply mapM_Some in Hls.
  intros [->|Hx]%elem_of_cons.
  { destruct (Hac n) as [pn Hpn]. eauto using Path_self. }
  apply list_elem_of_In, in_concat in Hx as (lx & Hlx & Hx).
  apply list_elem_of_In in Hlx, Hx.
  apply list_elem_of_lookup in Hlx as [i Hi].
  destruct (Forall2_lookup_r _ _ _ _ _ Hls Hi) as (c & Hc & Hsc).
  destruct (IH _ _ _ Hsc Hx) as (px & Hpx & Hcx).
  exists px. split; [done|].
  assert (parent h c = Some n) as Hpc
    by (apply Hown, list_elem_of_lookup; eauto).
  destruct (child_on_path _ _ _ _ _ Hpc Hpx Hcx) as (pn & l2 & Hpn & ->).
  apply elem_of_app. left. by eapply Path_self.
Qed.

Lemma children_on_path_eq h c c' n x px :
  parent h c = Some n → parent h c' = Some n →
  Path h x px → c ∈ px → c' ∈ px → c = c'.
Proof.
  intros Hc Hc' Hpx Hin Hin'.
  destruct (child_on_path _ _ _ _ _ Hc Hpx Hin) as (pn & l2 & Hpn & Heq).
  destruct (child_on_path _ _ _ _ _ Hc' Hpx Hin') as (pn' & l2' & Hpn' & Heq').
  rewrite (Path_det _ _ _ _ Hpn' Hpn) in Heq'. rewrite Heq in Heq'.
  apply app_inv_head in Heq'. congruence.
Qed.

Lemma NoDup_concat_disjoint {A} (ls : list (list A)) :
  Forall (NoDup (A:=A)) ls →
  (∀ i j li lj x, i ≠ j → ls !! i = Some li → ls !! j = Some lj →
                  x ∈ li → x ∈ lj → False) →
  NoDup (concat ls).
Proof.
  induction 1 as [|l ls Hl Hls IH]; intros Hdis; simpl; [constructor|].
  apply NoDup_app. split; [done|]. split.
  - intros x Hx Hx'. apply list_elem_of_In, in_concat in Hx' as (lj & Hlj & Hxj).
    apply list_elem_of_In, list_elem_of_lookup in Hlj as [j Hj].
    apply list_elem_of_In in Hxj.
    by apply (Hdis 0 (S j) l lj x).
  - apply IH. intros i j li lj x Hij Hi Hj.
    apply (Hdis (S i) (S j)); [lia|done|done].
Qed.

Lemma subtree_NoDup d h n l :
  wf h → subtree d h n = Some l → NoDup l.
Proof.
  intros [Hac Hreg Hown Honce]. revert n l.
  induction d as [|d IH]; intros n l; [done|]. rewrite subtree_S.
  destruct (mapM (subtree d h) (children h n)) as [ls|] eqn:Hls; [|done].
  simpl. intros [= <-]. apply mapM_Some in Hls.
  assert (∀ i li x, ls !! i = Some li → x ∈ li →
            ∃ c px, children h n !! i = Some c ∧ subtree d h c = Some li ∧
                    Path h x px ∧ c ∈ px) as Hsub.
  { intros i li x Hi Hx.
    destruct (Forall2_lookup_r _ _ _ _ _ Hls Hi) as (c & Hc & Hsc).
    destruct (subtree_elem _ _ _ _ _ Hac Hown Hsc Hx) as (px & Hpx & Hcx). eauto 8. }
  apply NoDup_cons. split.
  - intros Hn. apply list_elem_of_In, in_concat in Hn as (li & Hli & Hn).
    apply list_elem_of_In, list_elem_of_lookup in Hli as [i Hi].
    apply list_elem_of_In in Hn.
    destruct (Hsub _ _ _ Hi Hn) as (c & pn & Hc & _ & Hpn & Hcn).
    assert (parent h c = Some n) as Hpc by (apply Hown, list_elem_of_lookup; eauto).
    by apply (Path_parent_not_in _ _ _ _ Hpc Hpn).
  - apply NoDup_concat_disjoint.
    + apply Forall_forall. intros li [i Hi]%list_elem_of_lookup.
      destruct (Forall2_lookup_r _ _ _ _ _ Hls Hi) as (c & Hc & Hsc). by eapply IH.
    + intros i j li lj x Hij Hi Hj Hxi Hxj.
      destruct (Hsub _ _ _ Hi Hxi) as (ci & px & Hci & _ & Hpx & Hcix).
      destruct (Hsub _ _ _ Hj Hxj) as (cj & px' & Hcj & _ & Hpx' & Hcjx).
      rewrite (Path_det _ _ _ _ Hpx' Hpx) in Hcjx.
      assert (ci = cj) as <-.
      { eapply (children_on_path_eq h ci cj n x px); try done;
          apply Hown, list_elem_of_lookup; eauto. }
      apply Hij. eapply NoDup_lookup; [apply (Honce n)|done..].
Qed.

(** ** PreOrderIter *)

Lemma preorder_mono k k' h stack l :
  preorder k h stack = Some l → k ≤ k' → preorder k' h stack = Some l.
Proof.
  revert k' stack l. induction k as [|k IH]; intros k' [|n stack] l Hl Hk;
    try done; try (by destruct k').
  destruct k' as [|k']; [lia|]. simpl in *.
  destruct (preorder k h (children h n ++ stack)) as [l'|] eqn:Hl'; [|done].
  by rewrite (IH k' _ _ Hl' ltac:(lia)).
Qed.

(** The stack of [PreOrderIter] unwinds the recursion: a node on top of
    the stack yields its subtree, then what the rest of the stack
    yields. *)
Lemma preorder_subtree d h :
  ∀ n l, subtree d h n = Some l →
    ∀ stack k rest, preorder k h stack = Some rest →
      ∃ k', preorder k' h (n :: stack) = Some (l ++ rest).
Proof.
  induction d as [|d IH]; intros n l; [done|]. rewrite subtree_S.
  destruct (mapM (subtree d h) (children h n)) as [ls|] eqn:Hls; [|done].
  simpl. intros [= <-] stack k rest Hrest. apply mapM_Some in Hls.
  assert (∃ k', preorder k' h (children h n ++ stack) = Some (concat ls ++ rest))
    as [k' Hk'].
  { induction Hls as [|c lc cs ls' Hc _ IHcs]; simpl; [eauto|].
    destruct IHcs as [k1 Hk1].
    destruct (IH c lc Hc (cs ++ stack) k1 _ Hk1) as [k2 Hk2].
    exists k2. by rewrite <- app_assoc. }
  exists (S k'). simpl. by rewrite Hk'.
Qed.

Lemma preorder_returns h n :
  acyclic h → owned h →
  ∃ fuel0 l, subtree fuel0 h n = Some l ∧
             ∀ fuel, fuel0 ≤ fuel →
               preorder fuel h [n] = Some l ∧ subtree fuel h n = Some l.
Proof.
  intros Hac Hown. destruct (subtree_returns h n Hac Hown) as [l Hl].
  destruct (preorder_subtree _ _ _ _ Hl [] 0 [] eq_refl) as [k Hk].
  rewrite app_nil_r in Hk.
  exists (k + S (S (size (_parent h)))), l. split.
  - eapply subtree_mono; [done|lia].
  - intros fuel Hfuel. split.
    + eapply preorder_mono; [done|lia].
    + eapply subtree_mono; [done|lia].
Qed.

(** X10.  On a heap that satisfies the invariants [PreOrderIter(n)]
    ends: with enough fuel it yields [n] first, every node once, and
    exactly the nodes that have [n] on their path - [n] and its
    descendants. *)
Theorem preorder_visits_subtree (h : heap) (n : node) :
  wf h →
  ∃ fuel0 l, ∀ fuel, fuel0 ≤ fuel →
    preorder fuel h [n] = Some l ∧
    descendants fuel h n = Some (tail l) ∧
    head l = Some n ∧
    NoDup l ∧
    ∀ x, x ∈ l ↔ ∃ fuel' px, _path fuel' h x = Some px ∧ n ∈ px.
Proof.
  intros Hwf. pose proof Hwf as [Hac Hreg Hown Honce].
  destruct (preorder_returns h n Hac Hown) as (fuel0 & l & Hsub & Hpre).
  exists fuel0, l. intros fuel Hfuel. destruct (Hpre fuel Hfuel) as [Hp _].
  split; [done|]. split; [unfold descendants; by rewrite Hp|].
  destruct (subtree_closed _ _ _ _ Hsub) as [Hn Hclosed].
  split.
  { destruct fuel0; [done|]. rewrite subtree_S in Hsub.
    destruct (mapM _ _); [|done]. by injection Hsub as <-. }
  split; [by eapply subtree_NoDup|]. intros x. split.
  - intros Hx. destruct (subtree_elem _ _ _ _ _ Hac Hown Hsub Hx) as (px & Hpx & Hin).
    exists (length px), px. split; [by apply Path_path|done].
  - intros (fuel' & px & Hpx & Hin). apply _path_Path in Hpx.
    by eapply closed_holds_below.
Qed.

Lemma preorder_visits_subtree_witness :
  wf walker_tree ∧
  ∃ fuel0 l, ∀ fuel, fuel0 ≤ fuel →
    preorder fuel walker_tree [2] = Some l ∧
    descendants fuel walker_tree 2 = Some (tail l) ∧
    head l = Some 2 ∧
    NoDup l ∧
    ∀ x, x ∈ l ↔ ∃ fuel' px, _path fuel' walker_tree x = Some px ∧ 2 ∈ px.
Proof.
  assert (wf walker_tree) as Hwf by (apply wf_check_sound; vm_compute; reflexivity).
  split; [exact Hwf|]. exact (preorder_visits_subtree walker_tree 2 Hwf).
Defined.

(** ** PostOrderIter *)

Lemma postorder_next_cons fuel h c cs :
  postorder_next (S fuel) h (c :: cs)
  = (λ found, concat found) <$>
      mapM (λ child, (λ grandchildren, grandchildren ++ [child]) <$>
                       postorder_next fuel h (children h child)) (c :: cs).
Proof. done. Qed.

Lemma postorder_next_mono k k' h ns l :
  postorder_next k h ns = Some l → k ≤ k' → postorder_next k' h ns = Some l.
Proof.
  revert k' ns l. induction k as [|k IH]; intros k' [|c cs] l Hl Hk;
    try done; try (by destruct k').
  destruct k' as [|k']; [lia|]. rewrite postorder_next_cons in *.
  destruct (mapM _ (c :: cs)) as [found|] eqn:Hf in Hl; [|done].
  erewrite mapM_mono; [exact Hl| |exact Hf].
  intros x y _ Hy. simpl in *.
  destruct (postorder_next k h (children h x)) as [g|] eqn:Hg; [|done].
  by rewrite (IH k' _ _ Hg ltac:(lia)).
Qed.

Lemma concat_Permutation_Forall2 {A} (ls ls' : list (list A)) :
  Forall2 (≡ₚ) ls ls' → concat ls ≡ₚ concat ls'.
Proof. induction 1 as [|l l' ls ls' Hl _ IH]; simpl; [done|]. by rewrite Hl, IH. Qed.

(** Post-order rearranges the subtrees of the given nodes and ends with
    the last of them. *)
Lemma postorder_of_subtrees d h :
  ∀ ns ls, mapM (subtree d h) ns = Some ls →
    ∃ post, postorder_next d h ns = Some post ∧
            post ≡ₚ concat ls ∧ last post = last ns.
Proof.
  induction d as [|d IH]; intros ns ls Hls.
  { destruct ns; [|done]. injection Hls as <-. by exists []. }
  destruct ns as [|c cs]; [injection Hls as <-; by exists []|].
  rewrite postorder_next_cons. apply mapM_Some in Hls.
  assert (∃ posts,
            mapM (λ child, (λ grandchildren, grandchildren ++ [child]) <$>
                             postorder_next d h (children h child)) (c :: cs)
            = Some posts ∧
            Forall2 (≡ₚ) posts ls ∧ last (concat posts) = last (c :: cs))
    as (posts & -> & Hperm & Hlast).
  { induction Hls as [|x lx xs ls' Hx _ IHxs].
    { by exists []. }
    destruct IHxs as (posts & Hposts & Hperm & Hlast).
    rewrite subtree_S in Hx.
    destruct (mapM (subtree d h) (children h x)) as [lsx|] eqn:Hlsx; [|done].
    injection Hx as <-. destruct (IH _ _ Hlsx) as (px & Hpx & Hpp & _).
    exists ((px ++ [x]) :: posts). split; [|split].
    - rewrite mapM_Some. constructor; [by rewrite Hpx|by apply mapM_Some].
    - constructor; [|done]. by rewrite Hpp, Permutation_app_comm.
    - change (concat ((px ++ [x]) :: posts)) with ((px ++ [x]) ++ concat posts).
      rewrite last_app, Hlast, (last_cons x xs), last_snoc.
      by destruct (last xs). }
  simpl. eexists. split; [done|]. split; [|done].
  by apply concat_Permutation_Forall2.
Qed.

(** X11.  On a heap that satisfies the invariants [PostOrderIter(n)]
    ends: with enough fuel it yields the nodes [PreOrderIter(n)]
    yields, in another order, and [n] itself comes last. *)
Theorem postorder_permutes_preorder (h : heap) (n : node) :
  wf h →
  ∃ fuel0 pre post, ∀ fuel, fuel0 ≤ fuel →
    preorder fuel h [n] = Some pre ∧
    postorder fuel h n = Some post ∧
    post ≡ₚ pre ∧
    last post = Some n.
Proof.
  intros [Hac Hreg Hown Honce].
  destruct (preorder_returns h n Hac Hown) as (fuel0 & l & Hsub & Hpre).
  assert (mapM (subtree fuel0 h) [n] = Some [l]) as Hm
    by (apply mapM_Some; repeat constructor; done).
  destruct (postorder_of_subtrees _ _ _ _ Hm) as (post & Hpost & Hperm & Hlast).
  simpl in Hperm. rewrite app_nil_r in Hperm.
  exists fuel0, l, post. intros fuel Hfuel.
  split; [by apply Hpre|]. split; [|done].
  unfold postorder. by eapply postorder_next_mono.
Qed.

Lemma postorder_permutes_preorder_witness :
  wf walker_tree ∧
  ∃ fuel0 pre post, ∀ fuel, fuel0 ≤ fuel →
    preorder fuel walker_tree [1] = Some pre ∧
    postorder fuel walker_tree 1 = Some post ∧
    post ≡ₚ pre ∧
    last post = Some 1.
Proof.
  assert (wf walker_tree) as Hwf by (apply wf_check_sound; vm_compute; reflexivity).
  split; [exact Hwf|]. exact (postorder_permutes_preorder walker_tree 1 Hwf).
Defined.

(** The docstring example of [PostOrderIter]: a, c, e, d, b, h, i, g, f. *)
Example postorder_docstring :
  postorder 9 walker_tree 1 = Some [3; 5; 6; 4; 2; 9; 8; 7; 1].
Proof. vm_compute. reflexivity. Qed.

(** ** RenderTree *)

Lemma render_next_S fuel s childiter h n continues :
  render_next (S fuel) s childiter h n continues =
    (λ rows, render_item s n continues :: concat rows) <$>
      (match children h n with
       | [] => Some []
       | _ :: _ =>
           mapM (λ ic : nat * node,
                   render_next fuel s childiter h ic.2
                     (continues ++ [bool_decide (ic.1 ≠ length (children h n) - 1)]))
                (imap (λ idx child, (idx, child)) (childiter (children h n)))
       end).
Proof. done. Qed.

Lemma render_next_mono k k' s childiter h n continues rows :
  render_next k s childiter h n continues = Some rows → k ≤ k' →
  render_next k' s childiter h n continues = Some rows.
Proof.
  revert k' n continues rows. induction k as [|k IH];
    intros [|k'] n continues rows Hrows Hk; try done; [lia|].
  rewrite render_next_S in *. destruct (children h n) as [|c cs]; [done|].
  destruct (mapM _ _) as [rowss|] eqn:Hm in Hrows; [|done].
  erewrite mapM_mono; [exact Hrows| |exact Hm].
  intros ic y _ Hy. simpl in *. apply (IH k'); [done|lia].
Qed.

Lemma imap_pair_snd {A} (g : nat → nat) (l : list A) :
  (imap (λ i x, (g i, x)) l).*2 = l.
Proof.
  revert g. induction l as [|x l IH]; intros g; [done|].
  rewrite imap_cons, fmap_cons. simpl. f_equal. apply (IH (g ∘ S)).
Qed.

Lemma fmap_concat {A B} (f : A → B) (ls : list (list A)) :
  f <$> concat ls = concat ((λ l : list A, f <$> l) <$> ls).
Proof.
  induction ls as [|l ls IH]; [done|]. simpl. by rewrite fmap_app, IH.
Qed.

Lemma concat_Permutation {A} (ls ls' : list (list A)) :
  ls ≡ₚ ls' → concat ls ≡ₚ concat ls'.
Proof.
  induction 1 as [|l ls ls' _ IH|l1 l2 ls|ls1 ls2 ls3 _ IH1 _ IH2]; simpl.
  - done.
  - by rewrite IH.
  - rewrite !app_assoc. by rewrite (Permutation_app_comm l1 l2).
  - by rewrite IH1.
Qed.

Section Render.

Variables (s : style) (childiter : list node → list node) (h : heap).

(** The child iterators of the docstring ([list], [reversed], a sort)
    rearrange the children. *)
Hypothesis childiter_perm : ∀ cs, childiter cs ≡ₚ cs.

(** The rows of a node are its own row and then the rows of its
    subtree, rearranged as the child iterator rearranges children. *)
Lemma render_of_subtree d :
  ∀ n l continues, subtree d h n = Some l →
    ∃ rows, render_next d s childiter h n continues = Some rows ∧
            head rows = Some (render_item s n continues) ∧
            rows.*2 ≡ₚ l ∧
            ((∀ cs, childiter cs = cs) → rows.*2 = l).
Proof.
  induction d as [|d IH]; intros n l continues; [done|].
  rewrite subtree_S, render_next_S.
  destruct (mapM (subtree d h) (children h n)) as [ls|] eqn:Hls; [|done].
  simpl. intros [= <-]. apply mapM_Some in Hls.
  destruct (children h n) as [|c cs] eqn:Hcs.
  { inversion Hls; subst. exists [render_item s n continues].
    unfold render_item. by destruct (last continues). }
  set (F := λ c, default [] (subtree d h c)).
  assert (F <$> (c :: cs) = ls) as HF.
  { clear Hcs. induction Hls as [|x lx xs ls' Hx _ IHxs]; [done|].
    rewrite fmap_cons, IHxs. unfold F at 1. by rewrite Hx. }
  assert (∀ x, x ∈ c :: cs → subtree d h x = Some (F x)) as Hsome.
  { intros x [i Hi]%list_elem_of_lookup.
    destruct (Forall2_lookup_l _ _ _ _ _ Hls Hi) as (lx & _ & Hx).
    unfold F. by rewrite Hx. }
  assert (∀ ics : list (nat * node),
            (∀ ic, ic ∈ ics → ic.2 ∈ c :: cs) →
            ∃ rowss,
              mapM (λ ic : nat * node,
                      render_next d s childiter h ic.2
                        (continues ++ [bool_decide (ic.1 ≠ length (c :: cs) - 1)]))
                   ics = Some rowss ∧
              Forall2 (λ rows ic, rows.*2 ≡ₚ F ic.2 ∧
                                  ((∀ cs, childiter cs = cs) → rows.*2 = F ic.2))
                      rowss ics) as Hrows.
  { induction ics as [|ic ics IHics]; intros Hin.
    { exists []. by split; [|constructor]. }
    destruct IHics as (rowss & Hm & Hf2); [intros; apply Hin; by right|].
    destruct (IH ic.2 (F ic.2)
                (continues ++ [bool_decide (ic.1 ≠ length (c :: cs) - 1)]))
      as (rows & Hr & _ & Hp & Hid); [apply Hsome, Hin; left|].
    exists (rows :: rowss). split; [|by constructor].
    apply mapM_Some. constructor; [done|by apply mapM_Some]. }
  destruct (Hrows (imap (λ idx child, (idx, child)) (childiter (c :: cs))))
    as (rowss & -> & Hf2).
  { intros ic Hic. rewrite <- (childiter_perm (c :: cs)).
    rewrite <- (imap_pair_snd id (childiter (c :: cs))).
    apply list_elem_of_fmap. eauto. }
  simpl. eexists. split; [done|]. split; [done|].
  assert ((render_item s n continues).2 = n) as Hnode
    by (unfold render_item; by destruct (last continues)).
  rewrite fmap_cons, Hnode, fmap_concat.
  assert (Forall2 (≡ₚ) ((λ rows : list (text * text * node), rows.*2) <$> rowss)
                  (F <$> childiter (c :: cs))) as Hp.
  { rewrite <- (imap_pair_snd id (childiter (c :: cs))) at 1.
    rewrite <- list_fmap_compose.
    apply Forall2_fmap. eapply Forall2_impl; [exact Hf2|]. by intros ?? [? _]. }
  split.
  - constructor. rewrite (concat_Permutation_Forall2 _ _ Hp), <- HF.
    apply concat_Permutation. by rewrite (childiter_perm (c :: cs)).
  - intros Hid. f_equal. rewrite <- HF, <- (Hid (c :: cs)) at 1. f_equal.
    transitivity (F <$> (imap (λ idx child, (idx, child)) (childiter (c :: cs))).*2);
      [|by rewrite (imap_pair_snd id)].
    clear -Hf2 Hid. induction Hf2 as [|rows ic rowss ics [_ Hr] _ IHf]; [done|].
    rewrite !fmap_cons. f_equal; [by apply Hr|done].
Qed.

End Render.

(** X12.  On a heap that satisfies the invariants, with a child
    iterator that rearranges the children, [RenderTree] ends: with
    enough fuel it yields one row per node [PreOrderIter] yields, the
    first for the node itself with empty prefix and filling; with the
    default child iterator [list] the rows come in pre-order. *)
Theorem render_rows_preorder (s : style) (childiter : list node → list node)
    (h : heap) (n : node) :
  wf h → (∀ cs, childiter cs ≡ₚ cs) →
  ∃ fuel0 rows pre, ∀ fuel, fuel0 ≤ fuel →
    render fuel s childiter h n = Some rows ∧
    preorder fuel h [n] = Some pre ∧
    head rows = Some ([], [], n) ∧
    rows.*2 ≡ₚ pre ∧
    ((∀ cs, childiter cs = cs) → rows.*2 = pre).
Proof.
  intros [Hac Hreg Hown Honce] Hperm.
  destruct (preorder_returns h n Hac Hown) as (fuel0 & l & Hsub & Hpre).
  destruct (render_of_subtree s childiter h Hperm fuel0 n l [] Hsub)
    as (rows & Hrows & Hhead & Hp & Hid).
  exists fuel0, rows, l. intros fuel Hfuel.
  split; [unfold render; by eapply render_next_mono|].
  split; [by apply Hpre|]. done.
Qed.

Lemma render_rows_preorder_witness :
  wf resolver_tree ∧ (∀ cs : list node, reverse cs ≡ₚ cs) ∧
  ∃ fuel0 rows pre, ∀ fuel, fuel0 ≤ fuel →
    render fuel (Style [124; 32; 32; 32]%N [124; 45; 45; 32]%N [43; 45; 45; 32]%N)
           reverse resolver_tree 1 = Some rows ∧
    preorder fuel resolver_tree [1] = Some pre ∧
    head rows = Some ([], [], 1) ∧
    rows.*2 ≡ₚ pre ∧
    ((∀ cs : list node, reverse cs = cs) → rows.*2 = pre).
Proof.
  assert (wf resolver_tree) as Hwf by (apply wf_check_sound; vm_compute; reflexivity).
  assert (∀ cs : list node, reverse cs ≡ₚ cs) as Hperm
    by (intros cs; apply reverse_Permutation).
  split; [exact Hwf|]. split; [exact Hperm|].
  exact (render_rows_preorder _ reverse resolver_tree 1 Hwf Hperm).
Defined.

Lemma childiter_perm_elem (childiter : list node → list node) :
  (∀ cs, childiter cs ≡ₚ cs) → ∀ cs x, x ∈ childiter cs ↔ x ∈ cs.
Proof. intros Hperm cs x. by rewrite (Hperm cs). Qed.

Lemma AbstractStyle_lengths v c e s :
  AbstractStyle v c e = Some s →
  length (vertical s) = length (end_ s) ∧ length (cont s) = length (end_ s) ∧
  length (empty s) = length (end_ s).
Proof.
  unfold AbstractStyle, empty. case_bool_decide as Hlen; [|done].
  intros [= <-]. simpl. rewrite length_replicate. lia.
Qed.

Lemma indent_of_length s cs :
  length (vertical s) = length (end_ s) → length (empty s) = length (end_ s) →
  length (indent_of s cs) = length (end_ s) * length cs.
Proof.
  intros Hv He. induction cs as [|c cs IH]; [simpl; lia|].
  change (indent_of s (c :: cs))
    with ((if c then vertical s else empty s) ++ indent_of s cs).
  rewrite length_app, IH. simpl. destruct c; lia.
Qed.

Lemma render_item_length v c e s n continues :
  AbstractStyle v c e = Some s →
  length (render_item s n continues).1.1 = length (end_ s) * length continues ∧
  length (render_item s n continues).1.2 = length (end_ s) * length continues ∧
  (render_item s n continues).2 = n.
Proof.
  intros (Hv & Hc & He)%AbstractStyle_lengths. unfold render_item.
  destruct continues as [|b continues _] using rev_ind; [simpl; lia|].
  rewrite last_snoc. simpl. rewrite !length_app, !indent_of_length by done.
  rewrite length_app. simpl.
  replace (length continues + 1 - 1) with (length continues) by lia.
  rewrite take_app_length. split; [destruct b; lia|]. split; [lia|done].
Qed.

Lemma render_prefix_length v c e s childiter h :
  AbstractStyle v c e = Some s → owned h → (∀ cs, childiter cs ≡ₚ cs) →
  ∀ d n continues rows pn,
    Path h n pn →
    render_next d s childiter h n continues = Some rows →
    ∀ pre fill x, (pre, fill, x) ∈ rows →
      ∃ px k, Path h x px ∧ length px = length pn + k ∧
              length pre = length (end_ s) * (length continues + k) ∧
              length fill = length (end_ s) * (length continues + k).
Proof.
  intros Hs Hown Hperm. induction d as [|d IH]; intros n continues rows pn Hpn;
    [done|].
  rewrite render_next_S.
  destruct (match children h n with [] => Some [] | _ :: _ => _ end)
    as [rowss|] eqn:Hrowss; [|done].
  simpl. intros [= <-] pre fill x [Hx|Hx]%elem_of_cons.
  - destruct (render_item_length v c e s n continues Hs) as (H1 & H2 & H3).
    rewrite <- Hx in H1, H2, H3. simpl in *. subst x.
    exists pn, 0. rewrite !Nat.add_0_r. done.
  - destruct (children h n) as [|c0 cs] eqn:Hcs.
    { injection Hrowss as <-. by inversion Hx. }
    apply mapM_Some in Hrowss.
    apply list_elem_of_In, in_concat in Hx as (rs & Hrs & Hx).
    apply list_elem_of_In, list_elem_of_lookup in Hrs as [i Hi].
    apply list_elem_of_In in Hx.
    destruct (Forall2_lookup_r _ _ _ _ _ Hrowss Hi) as (ic & Hic & Hr).
    assert (ic.2 ∈ c0 :: cs) as Hin.
    { rewrite <- (childiter_perm_elem childiter Hperm).
      rewrite <- (imap_pair_snd id (childiter (c0 :: cs))).
      apply list_elem_of_fmap. exists ic. split; [done|].
      apply list_elem_of_lookup. eauto. }
    assert (parent h ic.2 = Some n) as Hp
      by (apply Hown; unfold children in Hcs; by rewrite Hcs).
    destruct (IH _ _ _ _ (Path_step _ _ _ _ Hp Hpn) Hr pre fill x Hx)
      as (px & k & Hpx & Hlen & Hpre & Hfill).
    exists px, (S k). rewrite !length_app in *. simpl in *.
    split; [done|]. split; [lia|]. split; [rewrite Hpre|rewrite Hfill]; f_equal; lia.
Qed.

Lemma render_rows_sub s childiter h n :
  wf h → (∀ cs, childiter cs ≡ₚ cs) →
  ∃ fuel0 rows l, render_next fuel0 s childiter h n [] = Some rows ∧
                  subtree fuel0 h n = Some l.
Proof.
  intros [Hac Hreg Hown Honce] Hperm.
  destruct (subtree_returns h n Hac Hown) as [l Hl].
  destruct (render_of_subtree s childiter h Hperm _ n l [] Hl) as (rows & Hrows & _).
  eauto.
Qed.

(** X13.  For a style whose three signs have equal length (the
    assertion of [AbstractStyle]), on a heap that satisfies the
    invariants: in every row [RenderTree(n)] yields, prefix and
    filling have the same length, the length of a sign times the depth
    of the row's node below [n]. *)
Theorem render_prefix_depth (v c e : text) (s : style)
    (childiter : list node → list node) (h : heap) (n : node) :
  AbstractStyle v c e = Some s → wf h → (∀ cs, childiter cs ≡ₚ cs) →
  ∃ fuel0 rows, ∀ fuel, fuel0 ≤ fuel →
    render fuel s childiter h n = Some rows ∧
    ∀ pre fill x, (pre, fill, x) ∈ rows →
      length pre = length fill ∧
      ∃ dx dn, depth fuel h x = Some dx ∧ depth fuel h n = Some dn ∧
               dn ≤ dx ∧ length pre = length e * (dx - dn).
Proof.
  intros Hs Hwf Hperm. pose proof Hwf as [Hac Hreg Hown Honce].
  destruct (render_rows_sub s childiter h n Hwf Hperm) as (fuel0 & rows & l & Hrows & Hl).
  destruct (Hac n) as [pn Hpn].
  exists (fuel0 + length l + length pn + S (size (_parent h))), rows.
  intros fuel Hfuel.
  split; [unfold render; eapply render_next_mono; [done|lia]|].
  intros pre fill x Hx.
  destruct (render_prefix_length v c e s childiter h Hs Hown Hperm
              fuel0 n [] rows pn Hpn Hrows pre fill x Hx)
    as (px & k & Hpx & Hlen & Hpre & Hfill).
  assert (length (end_ s) = length e) as He.
  { unfold AbstractStyle in Hs. case_bool_decide; [|done]. by injection Hs as <-. }
  split; [lia|]. exists (length px - 1), (length pn - 1).
  pose proof (Path_length_bound _ _ _ Hpx) as Hbx.
  pose proof (Path_length_bound _ _ _ Hpn) as Hbn.
  unfold depth. rewrite (Path_path _ _ _ Hpx), (Path_path _ _ _ Hpn) by lia.
  split; [done|]. split; [done|].
  destruct (Path_head _ _ _ Hpn) as (r & pn' & -> & _). simpl in *.
  split; [lia|].
  rewrite Hpre, He. f_equal. lia.
Qed.

Lemma render_prefix_depth_witness :
  AsciiStyle = Some (Style [124; 32; 32; 32]%N [124; 45; 45; 32]%N [43; 45; 45; 32]%N) ∧
  wf resolver_tree ∧ (∀ cs : list node, reverse cs ≡ₚ cs) ∧
  ∃ fuel0 rows, ∀ fuel, fuel0 ≤ fuel →
    render fuel (Style [124; 32; 32; 32]%N [124; 45; 45; 32]%N [43; 45; 45; 32]%N)
           reverse resolver_tree 1 = Some rows ∧
    ∀ pre fill x, (pre, fill, x) ∈ rows →
      length pre = length fill ∧
      ∃ dx dn, depth fuel resolver_tree x = Some dx ∧
               depth fuel resolver_tree 1 = Some dn ∧
               dn ≤ dx ∧ length pre = length [43; 45; 45; 32]%N * (dx - dn).
Proof.
  assert (AsciiStyle =
          Some (Style [124; 32; 32; 32]%N [124; 45; 45; 32]%N [43; 45; 45; 32]%N)) as Hs
    by reflexivity.
  assert (wf resolver_tree) as Hwf by (apply wf_check_sound; vm_compute; reflexivity).
  assert (∀ cs : list node, reverse cs ≡ₚ cs) as Hperm
    by (intros cs; apply reverse_Permutation).
  split; [exact Hs|]. split; [exact Hwf|]. split; [exact Hperm|].
  exact (render_prefix_depth _ _ _ _ reverse resolver_tree 1 Hs Hwf Hperm).
Defined.

(** ** [height] *)

Lemma height_eq d h n :
  height d h n
  = match _children h n with
    | [] => Some 0
    | _ :: _ =>
        match d with
        | 0 => None
        | S d' => (λ hs, max_list hs + 1) <$> mapM (height d' h) (_children h n)
        end
    end.
Proof. destruct d; simpl; by destruct (_children h n). Qed.

Lemma height_mono h d d' n k :
  height d h n = Some k → d ≤ d' → height d' h n = Some k.
Proof.
  revert d' n k. induction d as [|d IH]; intros d' n k; rewrite !height_eq;
    destruct (_children h n) as [|c cs]; try done.
  intros (hs & Hhs & ->)%fmap_Some Hle.
  destruct d' as [|d']; [lia|].
  erewrite (mapM_mono (height d h) (height d' h)); [done| |exact Hhs].
  intros x y _ Hy. apply IH; [done|lia].
Qed.

Lemma height_of_subtree h d n l :
  subtree d h n = Some l → is_Some (height d h n).
Proof.
  revert n l. induction d as [|d IH]; intros n l; [done|].
  rewrite subtree_S. intros (ls & Hls & _)%fmap_Some.
  rewrite height_eq. unfold children in Hls.
  destruct (_children h n) as [|c cs]; [by eexists|].
  apply fmap_is_Some, mapM_is_Some.
  assert (is_Some (mapM (subtree d h) (c :: cs))) as Hsome by by eexists.
  apply mapM_is_Some in Hsome.
  eapply Forall_impl; [exact Hsome|]. intros x [lx Hlx]. by eapply IH.
Qed.

Lemma below_cases h n pn x px :
  Path h n pn → Path h x px → n ∈ px →
  px = pn ∨ ∃ c l2, parent h c = Some n ∧ px = pn ++ c :: l2.
Proof.
  intros Hpn Hpx (l1 & l2 & ->)%list_elem_of_split.
  pose proof (Path_det _ _ _ _ Hpn (Path_prefix _ _ _ _ _ Hpx)) as ->.
  destruct l2 as [|c l2]; [by left|]. right. exists c, l2.
  split; [|by rewrite <- app_assoc].
  apply (Path_links _ _ _ Hpx (length l1)).
  - by rewrite lookup_app_r, Nat.sub_diag by lia.
  - rewrite lookup_app_r by lia. by replace (S (length l1) - length l1) with 1 by lia.
Qed.

Lemma height_bounds h :
  registered h → owned h →
  ∀ d n k pn, height d h n = Some k → Path h n pn →
    (∀ x px, Path h x px → n ∈ px → length px ≤ length pn + k) ∧
    (∃ x px, Path h x px ∧ n ∈ px ∧ length px = length pn + k).
Proof.
  intros Hreg Hown.
  assert (∀ n pn, _children h n = [] → Path h n pn →
    (∀ x px, Path h x px → n ∈ px → length px ≤ length pn + 0) ∧
    (∃ x px, Path h x px ∧ n ∈ px ∧ length px = length pn + 0)) as Hleaf.
  { intros n pn Hcs Hpn. split.
    - intros x px Hpx Hin.
      destruct (below_cases _ _ _ _ _ Hpn Hpx Hin) as [->|(c & l2 & Hc & _)]; [lia|].
      apply Hreg in Hc. rewrite Hcs in Hc. by apply elem_of_nil in Hc.
    - exists n, pn. split; [done|]. split; [by eapply Path_self|lia]. }
  induction d as [|d IH]; intros n k pn Hk Hpn; rewrite height_eq in Hk;
    destruct (_children h n) as [|c0 cs] eqn:Hcs;
    try (injection Hk as <-; by apply Hleaf); [done|].
  apply fmap_Some in Hk as (hs & Hhs & ->). apply mapM_Some in Hhs. split.
  - intros x px Hpx Hin.
    destruct (below_cases _ _ _ _ _ Hpn Hpx Hin) as [->|(c & l2 & Hc & ->)]; [lia|].
    pose proof (Hreg _ _ Hc) as Hcin. rewrite Hcs in Hcin.
    apply list_elem_of_lookup in Hcin as [i Hi].
    destruct (Forall2_lookup_l _ _ _ _ _ Hhs Hi) as (kc & Hkc & Hheight).
    destruct (IH c kc (pn ++ [c]) Hheight (Path_step _ _ _ _ Hc Hpn)) as [Hup _].
    assert (c ∈ pn ++ c :: l2) as Hcpx by (apply elem_of_app; right; left).
    specialize (Hup x (pn ++ c :: l2) Hpx Hcpx).
    apply list_elem_of_lookup_2, max_list_elem_of_le in Hkc.
    rewrite !length_app in Hup. rewrite length_app. simpl in *. lia.
  - assert (hs ≠ []) as Hne by (intros ->; by apply Forall2_nil_inv_r in Hhs).
    apply max_list_elem_of, list_elem_of_lookup in Hne as [i Hi].
    destruct (Forall2_lookup_r _ _ _ _ _ Hhs Hi) as (c & Hc & Hheight).
    assert (parent h c = Some n) as Hpc.
    { apply Hown. rewrite Hcs. by eapply list_elem_of_lookup_2. }
    destruct (IH c _ (pn ++ [c]) Hheight (Path_step _ _ _ _ Hpc Hpn))
      as [_ (x & px & Hpx & Hin & Hlen)].
    exists x, px. split; [done|]. split.
    + destruct (child_on_path _ _ _ _ _ Hpc Hpx Hin) as (pn' & l2 & Hpn' & ->).
      apply elem_of_app. left. by eapply Path_self.
    + rewrite Hlen, length_app. simpl. lia.
Qed.

(** X14.  On a heap that satisfies the invariants, [n.height] returns,
    it is 0 exactly when [n] is a leaf, and it is the greatest depth
    below [n]: the depth of every node that has [n] on its path is at
    most [n.depth + n.height], and some such node has this depth. *)
Theorem height_is_greatest_depth (h : heap) (n : node) :
  wf h →
  ∃ fuel0 k dn, ∀ fuel, fuel0 ≤ fuel →
    height fuel h n = Some k ∧ depth fuel h n = Some dn ∧
    (k = 0 ↔ is_leaf h n = true) ∧
    (∀ x px, _path fuel h x = Some px → n ∈ px →
       ∃ dx, depth fuel h x = Some dx ∧ dx ≤ dn + k) ∧
    (∃ x px, _path fuel h x = Some px ∧ n ∈ px ∧
             depth fuel h x = Some (dn + k)).
Proof.
  intros [Hac Hreg Hown Honce].
  destruct (subtree_returns h n Hac Hown) as [l Hl].
  destruct (height_of_subtree _ _ _ _ Hl) as [k Hk].
  destruct (Hac n) as [pn Hpn].
  destruct (height_bounds h Hreg Hown _ n k pn Hk Hpn) as [Hup (x & px & Hpx & Hin & Hlen)].
  destruct (Path_head _ _ _ Hpn) as (r & pn' & -> & _).
  exists (S (S (size (_parent h)))), k, (length pn'). intros fuel Hfuel.
  pose proof (Path_length_bound _ _ _ Hpn) as Hbn.
  pose proof (Path_length_bound _ _ _ Hpx) as Hbx.
  split; [by eapply height_mono|].
  split; [unfold depth; rewrite (Path_path _ _ _ Hpn) by lia; simpl; f_equal; lia|].
  split; [|split].
  - unfold is_leaf. rewrite height_eq in Hk.
    destruct (_children h n) as [|c cs]; [by injection Hk as <-|].
    destruct (S (S (size (_parent h)))); [done|].
    apply fmap_Some in Hk as (hs & _ & ->). simpl.
    split; [lia|done].
  - intros y py Hpy Hy. unfold depth. rewrite Hpy. simpl.
    eexists; split; [done|].
    apply _path_Path in Hpy. specialize (Hup y py Hpy Hy). simpl in Hup. lia.
  - exists x, px. rewrite (Path_path _ _ _ Hpx) by lia. split; [done|]. split; [done|].
    unfold depth. rewrite (Path_path _ _ _ Hpx) by lia. simpl in *. f_equal. lia.
Qed.

Lemma height_is_greatest_depth_witness :
  wf walker_tree ∧
  ∃ fuel0 k dn, ∀ fuel, fuel0 ≤ fuel →
    height fuel walker_tree 2 = Some k ∧ depth fuel walker_tree 2 = Some dn ∧
    (k = 0 ↔ is_leaf walker_tree 2 = true) ∧
    (∀ x px, _path fuel walker_tree x = Some px → 2 ∈ px →
       ∃ dx, depth fuel walker_tree x = Some dx ∧ dx ≤ dn + k) ∧
    (∃ x px, _path fuel walker_tree x = Some px ∧ 2 ∈ px ∧
             depth fuel walker_tree x = Some (dn + k)).
Proof.
  assert (wf walker_tree) as Hwf by (apply wf_check_sound; vm_compute; reflexivity).
  split; [exact Hwf|]. exact (height_is_greatest_depth walker_tree 2 Hwf).
Defined.

(** ** Resolver: what a pattern matches *)

Lemma re_match_ReStar re name :
  re_match (ReStar :: re) name
  = re_match re name ||
    match name with
    | String _ name' => re_match (ReStar :: re) name'
    | EmptyString => false
    end.
Proof. by destruct name. Qed.

Lemma re_match_skip re skipped name :
  re_match re name = true → re_match (ReStar :: re) (skipped +:+ name) = true.
Proof.
  intros Hm. induction skipped as [|c skipped IH].
  - change (EmptyString +:+ name) with name. by rewrite re_match_ReStar, Hm.
  - change (String c skipped +:+ name) with (String c (skipped +:+ name)).
    rewrite re_match_ReStar. cbv beta iota. rewrite IH. apply orb_true_r.
Qed.

Lemma re_match_ReStar_inv re name :
  re_match (ReStar :: re) name = true →
  ∃ skipped rest, name = skipped +:+ rest ∧ re_match re rest = true.
Proof.
  induction name as [|c name IH]; rewrite re_match_ReStar;
    intros [Hm|Hm]%orb_true_iff; try done.
  - by exists EmptyString, EmptyString.
  - by exists EmptyString, (String c name).
  - destruct (IH Hm) as (skipped & rest & -> & Hrest).
    by exists (String c skipped), rest.
Qed.

Lemma wild_match_re_match pat name :
  wild_match pat name → re_match (__translate pat) name = true.
Proof.
  induction 1 as [|pat skipped name _ IH|pat c name _ IH|c pat name Hs Hq _ IH].
  - done.
  - by apply (re_match_skip (__translate pat)).
  - done.
  - simpl. apply Ascii.eqb_neq in Hs, Hq. rewrite Hs, Hq. simpl.
    by rewrite Ascii.eqb_refl.
Qed.

Lemma re_match_wild_match pat name :
  re_match (__translate pat) name = true → wild_match pat name.
Proof.
  revert name. induction pat as [|c pat IH]; intros name.
  { destruct name; [constructor|done]. }
  change (__translate (String c pat))
    with ((if Ascii.eqb c "*" then ReStar
           else if Ascii.eqb c "?" then ReDot else ReChar c) :: __translate pat).
  destruct (Ascii.eqb c "*") eqn:Hs.
  { apply Ascii.eqb_eq in Hs as ->.
    intros (skipped & rest & -> & Hrest)%re_match_ReStar_inv.
    constructor. by apply IH. }
  destruct (Ascii.eqb c "?") eqn:Hq.
  { apply Ascii.eqb_eq in Hq as ->.
    destruct name as [|c' name]; [done|]. simpl. intros Hm. constructor. by apply IH. }
  destruct name as [|c' name]; [done|]. simpl.
  intros [Hc Hm]%andb_true_iff. apply Ascii.eqb_eq in Hc as <-.
  apply Ascii.eqb_neq in Hs, Hq. constructor; [done|done|by apply IH].
Qed.

(** X15.  When the cache holds only translations, [__match(name, pat)]
    returns, and it returns [True] exactly when [name] is [pat] with
    every [*] replaced by some run of characters and every [?] by some
    one character; the call changes nothing but the cache. *)
Theorem __match_wildcards (name pat : string) (h : heap) :
  cache_ok h →
  ∃ b, result (__match name pat) h = Returns b ∧
       (b = true ↔ wild_match pat name) ∧
       forget_cache (run (__match name pat) h) = forget_cache h.
Proof.
  intros Hok. destruct (__match_eq name pat h Hok) as (h' & Heq & Hh' & _).
  exists (re_match (__translate pat) name). unfold result, run. rewrite Heq. simpl.
  split; [done|]. split; [|done].
  split; [apply re_match_wild_match|apply wild_match_re_match].
Qed.

Lemma __match_wildcards_witness :
  cache_ok empty_heap ∧
  ∃ b, result (__match "sub0" "s*?") empty_heap = Returns b ∧
       (b = true ↔ wild_match "s*?" "sub0") ∧
       forget_cache (run (__match "sub0" "s*?") empty_heap) = forget_cache empty_heap.
Proof.
  split; [exact empty_heap_cache_ok|].
  exact (__match_wildcards "sub0" "s*?" empty_heap empty_heap_cache_ok).
Defined.

(** X16.  [__match] keeps the cache within [_MAXCACHE] patterns: a
    cache of at most [_MAXCACHE] entries has at most [_MAXCACHE]
    afterwards, the pattern asked for among them; a pattern that was
    cached is left as it is, and a full cache is emptied before a new
    pattern is stored. *)
Theorem __match_cache_bound (name pat : string) (h : heap) :
  size (_match_cache h) ≤ _MAXCACHE →
  let cache' := _match_cache (run (__match name pat) h) in
  size cache' ≤ _MAXCACHE ∧ is_Some (cache' !! pat) ∧
  (is_Some (_match_cache h !! pat) → cache' = _match_cache h) ∧
  (_match_cache h !! pat = None →
     cache' = <[pat := __translate pat]>
                (if bool_decide (size (_match_cache h) = _MAXCACHE)
                 then ∅ else _match_cache h)).
Proof.
  intros Hsize. unfold run, __match; munfold; simpl.
  destruct (_match_cache h !! pat) as [re_pat|] eqn:Hc; simpl.
  { rewrite Hc. split; [done|]. split; [by eexists|]. split; [done|]. done. }
  repeat case_bool_decide; try lia; simpl.
  - rewrite lookup_insert_eq. split; [|split; [by eexists|split; [by intros [? ?]|done]]].
    rewrite insert_empty, map_size_singleton. unfold _MAXCACHE. lia.
  - rewrite lookup_insert_eq. split; [|split; [by eexists|split; [by intros [? ?]|done]]].
    rewrite (map_size_insert_None _ _ _ Hc). lia.
Qed.

Lemma __match_cache_bound_witness :
  size (_match_cache empty_heap) ≤ _MAXCACHE ∧
  let cache' := _match_cache (run (__match "sub0" "s*?") empty_heap) in
  size cache' ≤ _MAXCACHE ∧ is_Some (cache' !! "s*?") ∧
  (is_Some (_match_cache empty_heap !! "s*?") → cache' = _match_cache empty_heap) ∧
  (_match_cache empty_heap !! "s*?" = None →
     cache' = <["s*?" := __translate "s*?"]>
                (if bool_decide (size (_match_cache empty_heap) = _MAXCACHE)
                 then ∅ else _match_cache empty_heap)).
Proof.
  assert (size (_match_cache empty_heap) ≤ _MAXCACHE) as Hsize
    by (simpl; rewrite map_size_empty; unfold _MAXCACHE; lia).
  split; [exact Hsize|].
  exact (__match_cache_bound "sub0" "s*?" empty_heap Hsize).
Defined.

(** ** Resolver: [get] *)

Lemma get_loop_eq gp nd parts h :
  get_loop gp nd parts h = (get_pure gp h nd parts, h).
Proof.
  revert nd. induction parts as [|part parts IH]; intros nd; [done|]. simpl.
  destruct (String.eqb part "..").
  { destruct nd as [n|]; [|done]. munfold. simpl. apply IH. }
  destruct (is_here part); [apply IH|].
  destruct nd as [n|]; [|done].
  unfold mbind, M_bind. unfold bind at 1. rewrite __get_nodemap_eq.
  change (OrderedDict _) with (nodemap gp h n).
  destruct (od_get part (nodemap gp h n)); [apply IH|done].
Qed.

Lemma get_pure_app gp h parts1 parts2 nd :
  get_pure gp h nd (parts1 ++ parts2)
  = match get_pure gp h nd parts1 with
    | Returns nd' => get_pure gp h nd' parts2
    | o => o
    end.
Proof.
  revert nd. induction parts1 as [|part parts1 IH]; intros nd; [done|]. simpl.
  destruct (String.eqb part "..").
  { destruct nd as [n|]; [apply IH|done]. }
  destruct (is_here part); [apply IH|].
  destruct nd as [n|]; [|done].
  destruct (od_get part (nodemap gp h n)); [apply IH|done].
Qed.

Lemma split_slash_nonempty s : split_slash s ≠ [].
Proof.
  destruct s as [|c s]; [done|]. simpl.
  destruct (Ascii.eqb c "/"); [done|]. by destruct (split_slash s).
Qed.

Lemma split_slash_app a b :
  split_slash (a +:+ "/" +:+ b) = split_slash a ++ split_slash b.
Proof.
  induction a as [|c a IH]; [done|].
  change (String c a +:+ "/" +:+ b) with (String c (a +:+ "/" +:+ b)).
  simpl. rewrite IH. destruct (Ascii.eqb c "/"); [done|].
  pose proof (split_slash_nonempty a). by destruct (split_slash a).
Qed.

Lemma get_relative gp fuel n path h :
  startswith_slash path = false →
  get gp fuel n path h = (get_pure gp h (Some n) (split_slash path), h).
Proof.
  intros Hrel. unfold get, __start. rewrite Hrel. munfold. apply get_loop_eq.
Qed.

(** X17.  Relative paths compose: when [get(n, a)] returns a node [m],
    [get(n, a + "/" + b)] is [get(m, b)], and when [get(n, a)] raises,
    [get(n, a + "/" + b)] raises the same; [a] is not empty, and
    neither [a] nor [b] starts with the separator. *)
Theorem get_composes (gp : node → string) (fuel : nat) (n : node)
    (a b : string) (h : heap) :
  a ≠ EmptyString → startswith_slash a = false → startswith_slash b = false →
  (∀ m, result (get gp fuel n a) h = Returns (Some m) →
        get gp fuel n (a +:+ "/" +:+ b) h = get gp fuel m b h) ∧
  (∀ e, result (get gp fuel n a) h = Raises e →
        result (get gp fuel n (a +:+ "/" +:+ b)) h = Raises e).
Proof.
  intros Ha Hra Hrb.
  assert (startswith_slash (a +:+ "/" +:+ b) = false) as Hrab
    by (by destruct a).
  unfold result. rewrite !get_relative by done. simpl.
  rewrite split_slash_app, get_pure_app.
  split.
  - intros m ->. by rewrite get_relative.
  - by intros e ->.
Qed.

Lemma get_composes_witness :
  ("sub0" : string) ≠ EmptyString ∧
  startswith_slash "sub0" = false ∧ startswith_slash "../sub1" = false ∧
  (∀ m, result (get resolver_name 6 1 "sub0") resolver_tree = Returns (Some m) →
        get resolver_name 6 1 ("sub0" +:+ "/" +:+ "../sub1") resolver_tree
        = get resolver_name 6 m "../sub1" resolver_tree) ∧
  (∀ e, result (get resolver_name 6 1 "sub0") resolver_tree = Raises e →
        result (get resolver_name 6 1 ("sub0" +:+ "/" +:+ "../sub1")) resolver_tree
        = Raises e).
Proof.
  assert (("sub0" : string) ≠ EmptyString) as Ha by done.
  split; [exact Ha|]. split; [reflexivity|]. split; [reflexivity|].
  exact (get_composes resolver_name 6 1 "sub0" "../sub1" resolver_tree
           Ha eq_refl eq_refl).
Defined.

Lemma od_get_od_set k k' v d :
  od_get k (od_set k' v d) = if String.eqb k' k then Some v else od_get k d.
Proof.
  induction d as [|[k0 v0] d IH]; simpl.
  - done.
  - destruct (String.eqb k0 k') eqn:H0; simpl.
    + apply String.eqb_eq in H0 as ->. by destruct (String.eqb k' k).
    + rewrite IH. destruct (String.eqb k0 k) eqn:H1; [|done].
      apply String.eqb_eq in H1 as ->. by rewrite String.eqb_sym, H0.
Qed.

Lemma od_get_foldl (gp : node → string) k cs d :
  od_get k (foldl (λ d kv, od_set kv.1 kv.2 d) d ((λ child, (gp child, child)) <$> cs))
  = match last (filter (λ c, gp c = k) cs) with
    | Some c => Some c
    | None => od_get k d
    end.
Proof.
  revert d. induction cs as [|c cs IH]; intros d; [done|].
  rewrite fmap_cons. simpl foldl. rewrite IH, od_get_od_set, filter_cons.
  destruct (decide (gp c = k)) as [Hk|Hk].
  - rewrite last_cons. apply String.eqb_eq in Hk as ->.
    by destruct (last (filter (λ c0, gp c0 = k) cs)).
  - apply String.eqb_neq in Hk as ->. done.
Qed.

Lemma od_get_nodemap gp h n k :
  od_get k (nodemap gp h n) = last (filter (λ c, gp c = k) (children h n)).
Proof.
  unfold nodemap, OrderedDict. rewrite od_get_foldl.
  by destruct (last (filter (λ c, gp c = k) (children h n))).
Qed.

Lemma split_slash_name s :
  contains_char "/" s = false → split_slash s = [s].
Proof.
  induction s as [|c s IH]; [done|]. simpl.
  destruct (Ascii.eqb c "/"); [done|]. simpl. by intros ->%IH.
Qed.

Lemma name_relative s : contains_char "/" s = false → startswith_slash s = false.
Proof. destruct s as [|c s]; [done|]. simpl. by destruct (Ascii.eqb c "/"). Qed.

(** X18.  For a name without separator that is not [""], ["."] or
    [".."], [get(n, name)] returns the last child of [n] that carries
    the name - children of equal name hide the earlier ones - and
    raises [ChildResolverError] when no child carries it; the heap is
    unchanged. *)
Theorem get_child_by_name (gp : node → string) (fuel : nat) (n : node)
    (name : string) (h : heap) :
  contains_char "/" name = false → is_here name = false →
  String.eqb name ".." = false →
  get gp fuel n name h
  = (match last (filter (λ c, gp c = name) (children h n)) with
     | Some c => Returns (Some c)
     | None => Raises (ChildResolverError n name (nodemap gp h n).*1)
     end, h).
Proof.
  intros Hslash Hhere Hup.
  rewrite get_relative by by apply name_relative.
  rewrite (split_slash_name _ Hslash). simpl. rewrite Hup, Hhere.
  rewrite od_get_nodemap. by destruct (last _).
Qed.

Lemma get_child_by_name_witness :
  contains_char "/" "sub1" = false ∧ is_here "sub1" = false ∧
  String.eqb "sub1" ".." = false ∧
  get resolver_name 6 1 "sub1" resolver_tree
  = (match last (filter (λ c, resolver_name c = "sub1") (children resolver_tree 1)) with
     | Some c => Returns (Some c)
     | None => Raises (ChildResolverError 1 "sub1" (nodemap resolver_name resolver_tree 1).*1)
     end, resolver_tree).
Proof.
  split; [reflexivity|]. split; [reflexivity|]. split; [reflexivity|].
  exact (get_child_by_name resolver_name 6 1 "sub1" resolver_tree eq_refl eq_refl eq_refl).
Defined.

(** ** Resolver: [glob] on paths without wildcard *)

Lemma od_set_keys k v d x : x ∈ (od_set k v d).*1 → x = k ∨ x ∈ d.*1.
Proof.
  intros (kv & -> & Hkv)%list_elem_of_fmap.
  apply od_set_elem in Hkv as [->|Hkv]; [by left|right].
  apply list_elem_of_fmap. by exists kv.
Qed.

Lemma od_set_NoDup k v d : NoDup d.*1 → NoDup (od_set k v d).*1.
Proof.
  induction d as [|[k' v'] d IH]; simpl.
  - intros _. apply NoDup_singleton.
  - intros [Hk' Hd]%NoDup_cons. destruct (String.eqb k' k) eqn:Hk; simpl.
    + apply String.eqb_eq in Hk as ->. by apply NoDup_cons.
    + apply NoDup_cons. split; [|by apply IH].
      intros [->|Hin]%od_set_keys; [|done]. by rewrite String.eqb_refl in Hk.
Qed.

Lemma OrderedDict_NoDup items : NoDup (OrderedDict items).*1.
Proof.
  unfold OrderedDict.
  assert (∀ d, NoDup d.*1 →
               NoDup (foldl (λ d kv, od_set kv.1 kv.2 d) d items).*1) as Hgen.
  { induction items as [|kv items IH]; intros d Hd; [done|].
    simpl. by apply IH, od_set_NoDup. }
  apply Hgen. constructor.
Qed.

Lemma od_get_None k (d : list (string * node)) : k ∉ d.*1 → od_get k d = None.
Proof.
  induction d as [|[k' v] d IH]; [done|]. simpl.
  intros Hk. apply not_elem_of_cons in Hk as [Hne Hk].
  destruct (String.eqb k' k) eqn:Heq; [|by apply IH].
  by apply String.eqb_eq in Heq.
Qed.

Lemma od_get_None_keys k (d : list (string * node)) kc :
  od_get k d = None → kc ∈ d → String.eqb k kc.1 = false.
Proof.
  induction d as [|[k' v] d IH]; [by intros _ ?%elem_of_nil|]. simpl.
  destruct (String.eqb k' k) eqn:Heq; [done|].
  intros Hd [->|Hin]%elem_of_cons; [by rewrite String.eqb_sym|by apply IH].
Qed.

Section LiteralSegment.

Variable pure_child : node → outcome (list node).
Variables (part : string) (rest : list string).
Hypothesis part_literal : __is_wildcard part = false.

Lemma glob_loop_pure_literal_last items matches :
  NoDup items.*1 →
  glob_loop_pure pure_child part [] items matches
  = Returns (matches ++ option_list (od_get part items)).
Proof.
  revert matches. induction items as [|[k v] items IH]; intros matches Hnd; simpl.
  { by rewrite app_nil_r. }
  apply NoDup_cons in Hnd as [Hk Hnd]. simpl in Hk.
  rewrite (re_match_literal _ _ part_literal), String.eqb_sym.
  destruct (String.eqb k part) eqn:Heq.
  - apply String.eqb_eq in Heq as ->. rewrite IH by done.
    by rewrite (od_get_None _ _ Hk), app_nil_r.
  - by apply IH.
Qed.

Lemma glob_loop_pure_literal items matches :
  rest ≠ [] → NoDup items.*1 →
  glob_loop_pure pure_child part rest items matches
  = match od_get part items with
    | None => Returns matches
    | Some c =>
        match pure_child c with
        | Returns found => Returns (matches ++ found)
        | o => o
        end
    end.
Proof.
  intros Hrest. revert matches.
  induction items as [|[k v] items IH]; intros matches Hnd; simpl; [done|].
  apply NoDup_cons in Hnd as [Hk Hnd]. simpl in Hk.
  rewrite (re_match_literal _ _ part_literal), String.eqb_sym.
  destruct (String.eqb k part) eqn:Heq; [|by apply IH].
  apply String.eqb_eq in Heq as ->.
  destruct rest as [|r rest']; [done|].
  destruct (pure_child v) as [found|e|]; [| |done].
  - rewrite IH by done. by rewrite (od_get_None _ _ Hk).
  - rewrite part_literal. simpl. by destruct (is_ResolverError e).
Qed.

End LiteralSegment.

Lemma glob_pure_get_pure gp h parts :
  Forall (λ part, __is_wildcard part = false) parts →
  ∀ p, last parts = Some p → is_here p = false → String.eqb p ".." = false →
  ∀ nd,
    match get_pure gp h nd parts with
    | Returns (Some m) => glob_pure gp h nd parts = Returns [m]
    | Returns None => False
    | Raises e => glob_pure gp h nd parts = Raises e
    | Diverges => glob_pure gp h nd parts = Diverges
    end.
Proof.
  intros Hlit p Hlast Hhere Hup.
  induction parts as [|part parts IH]; [done|].
  apply Forall_cons in Hlit as [Hpart Hlit].
  destruct parts as [|part2 parts].
  { injection Hlast as ->. intros nd. simpl. rewrite Hup, Hhere.
    destruct nd as [n|]; [|done].
    rewrite glob_loop_pure_literal_last by (done || apply OrderedDict_NoDup).
    rewrite Hpart. simpl.
    destruct (od_get p (nodemap gp h n)) as [c|]; simpl; done. }
  rewrite last_cons_cons in Hlast. specialize (IH Hlit Hlast).
  intros nd.
  change (get_pure gp h nd (part :: part2 :: parts))
    with (if String.eqb part ".." then
            match nd with
            | Some n => get_pure gp h (parent h n) (part2 :: parts)
            | None => Raises AttributeError
            end
          else if is_here part then get_pure gp h nd (part2 :: parts)
          else match nd with
               | Some n =>
                   match od_get part (nodemap gp h n) with
                   | Some child => get_pure gp h (Some child) (part2 :: parts)
                   | None => Raises (ChildResolverError n part (nodemap gp h n).*1)
                   end
               | None => Raises AttributeError
               end).
  change (glob_pure gp h nd (part :: part2 :: parts))
    with (if String.eqb part ".." then
            match nd with
            | Some n => glob_pure gp h (parent h n) (part2 :: parts)
            | None => Raises AttributeError
            end
          else if is_here part then glob_pure gp h nd (part2 :: parts)
          else match nd with
               | Some n =>
                   match glob_loop_pure
                           (λ child, glob_pure gp h (Some child) (part2 :: parts))
                           part (part2 :: parts) (nodemap gp h n) [] with
                   | Returns matches =>
                       if bool_decide (matches = []) && negb (__is_wildcard part)
                       then Raises (ChildResolverError n part (nodemap gp h n).*1)
                       else Returns matches
                   | o => o
                   end
               | None => Raises AttributeError
               end).
  destruct (String.eqb part "..").
  { destruct nd as [n|]; [apply IH|done]. }
  destruct (is_here part); [apply IH|].
  destruct nd as [n|]; [|done].
  rewrite glob_loop_pure_literal by (done || apply OrderedDict_NoDup).
  destruct (od_get part (nodemap gp h n)) as [c|].
  - specialize (IH (Some c)).
    destruct (get_pure gp h (Some c) (part2 :: parts)) as [[m|]|e|];
      try done; by rewrite IH.
  - by rewrite Hpart.
Qed.

Lemma get_pure_forget_cache gp h nd parts :
  get_pure gp (forget_cache h) nd parts = get_pure gp h nd parts.
Proof.
  revert nd. induction parts as [|part parts IH]; intros nd; [done|]. simpl.
  destruct (String.eqb part "..").
  { destruct nd as [n|]; [|done]. rewrite parent_forget_cache. apply IH. }
  destruct (is_here part); [apply IH|].
  destruct nd as [n|]; [|done].
  change (nodemap gp (forget_cache h) n) with (nodemap gp h n).
  destruct (od_get part (nodemap gp h n)); [apply IH|done].
Qed.

Lemma split_slash_contains c s :
  Ascii.eqb "/" c = false → contains_char c s = false →
  Forall (λ p, contains_char c p = false) (split_slash s).
Proof.
  intros Hc. induction s as [|a s IH]; simpl.
  { intros _. by repeat constructor. }
  intros [Ha Hs]%orb_false_iff. specialize (IH Hs).
  destruct (Ascii.eqb a "/"); [by constructor|].
  destruct (split_slash s) as [|x xs]; [by repeat constructor; simpl; rewrite Ha|].
  apply Forall_cons in IH as [Hx Hxs]. constructor; [|done].
  simpl. by rewrite Ha, Hx.
Qed.

Lemma split_slash_literal path :
  __is_wildcard path = false →
  Forall (λ part, __is_wildcard part = false) (split_slash path).
Proof.
  unfold __is_wildcard. intros [Hq Hs]%orb_false_iff.
  pose proof (split_slash_contains "?" path eq_refl Hq) as Hfq.
  pose proof (split_slash_contains "*" path eq_refl Hs) as Hfs.
  rewrite Forall_forall in Hfq, Hfs. apply Forall_forall. intros part Hpart.
  by rewrite (Hfq _ Hpart), (Hfs _ Hpart).
Qed.

Lemma __start_cases gp fuel n pth h :
  ∃ o, __start gp fuel n pth h = (o, h) ∧
       ∀ n' parts, o = Returns (n', parts) →
         parts = if startswith_slash pth
                 then tail (tail (split_slash pth)) else split_slash pth.
Proof.
  unfold __start. destruct (startswith_slash pth).
  2: { eexists. split; [done|]. by intros n' parts [= _ <-]. }
  unfold root, path, first_item, read; munfold; simpl.
  destruct (parent h n) as [p|]; simpl.
  - destruct (_path fuel h n) as [[|r l]|]; simpl;
      try (eexists; split; [done|]; by intros n' parts [=]).
    destruct (tail (split_slash pth)) as [|p0 parts0]; simpl;
      [eexists; split; [done|]; by intros n' parts [=]|].
    repeat case_bool_decide; simpl; eexists; (split; [done|]);
      by intros n' parts [=].
  - destruct (tail (split_slash pth)) as [|p0 parts0]; simpl;
      [eexists; split; [done|]; by intros n' parts [=]|].
    repeat case_bool_decide; simpl; eexists; (split; [done|]);
      by intros n' parts [=].
Qed.

(** X19.  On a path without wildcard whose last segment is a name,
    [glob] behaves like [get]: it returns the one-element list of the
    node [get] returns and raises what [get] raises.  An absolute path
    has a segment after the root's name. *)
Theorem glob_without_wildcard (gp : node → string) (fuel : nat) (n : node)
    (path p : string) (h : heap) :
  cache_ok h → __is_wildcard path = false →
  last (split_slash path) = Some p → is_here p = false →
  String.eqb p ".." = false →
  (startswith_slash path = true → 3 ≤ length (split_slash path)) →
  match result (get gp fuel n path) h with
  | Returns (Some m) => result (glob gp fuel n path) h = Returns [m]
  | Returns None => False
  | Raises e => result (glob gp fuel n path) h = Raises e
  | Diverges => result (glob gp fuel n path) h = Diverges
  end.
Proof.
  intros Hok Hwild Hlast Hhere Hup Habs.
  destruct (__start_cases gp fuel n path h) as (o & Hstart & Hparts).
  unfold result, get, glob, mbind, M_bind, bind. rewrite Hstart.
  destruct o as [[n' parts]|e|]; [|done|done].
  rewrite get_loop_eq. simpl.
  destruct (__glob_eq gp parts (Some n') h Hok) as (h' & -> & _). simpl.
  rewrite <- (get_pure_forget_cache gp h).
  apply (glob_pure_get_pure gp (forget_cache h) parts) with (p := p); try done.
  - rewrite (Hparts _ _ eq_refl). pose proof (split_slash_literal _ Hwild) as Hlit.
    destruct (startswith_slash path); [|done].
    destruct (split_slash path) as [|a [|b l]]; try done.
    apply Forall_cons in Hlit as [_ Hlit]. by apply Forall_cons in Hlit as [_ Hlit].
  - rewrite (Hparts _ _ eq_refl).
    destruct (startswith_slash path); [|done]. specialize (Habs eq_refl).
    destruct (split_slash path) as [|a [|b [|c l]]]; simpl in Habs; try lia.
    by rewrite !last_cons_cons in Hlast.
Qed.

Lemma glob_without_wildcard_witness :
  cache_ok resolver_tree ∧ __is_wildcard "/top/sub0/sub1" = false ∧
  last (split_slash "/top/sub0/sub1") = Some ("sub1" : string) ∧
  is_here "sub1" = false ∧ String.eqb "sub1" ".." = false ∧
  (startswith_slash "/top/sub0/sub1" = true →
   3 ≤ length (split_slash "/top/sub0/sub1")) ∧
  match result (get resolver_name 6 6 "/top/sub0/sub1") resolver_tree with
  | Returns (Some m) =>
      result (glob resolver_name 6 6 "/top/sub0/sub1") resolver_tree = Returns [m]
  | Returns None => False
  | Raises e => result (glob resolver_name 6 6 "/top/sub0/sub1") resolver_tree = Raises e
  | Diverges => result (glob resolver_name 6 6 "/top/sub0/sub1") resolver_tree = Diverges
  end.
Proof.
  assert (cache_ok resolver_tree) as Hok by (by apply cache_ok_empty).
  assert (startswith_slash "/top/sub0/sub1" = true →
          3 ≤ length (split_slash "/top/sub0/sub1")) as Habs
    by (intros _; simpl; lia).
  split; [exact Hok|]. split; [reflexivity|]. split; [reflexivity|].
  split; [reflexivity|]. split; [reflexivity|]. split; [exact Habs|].
  exact (glob_without_wildcard resolver_name 6 6 "/top/sub0/sub1" "sub1"
           resolver_tree Hok eq_refl eq_refl eq_refl eq_refl Habs).
Defined.

(** ** Resolver: the path shown by [__repr__] resolves to the node *)

Lemma split_slash_join names :
  names ≠ [] → Forall (λ s, contains_char "/" s = false) names →
  split_slash (join_slash names) = names.
Proof.
  induction names as [|p names IH]; [done|]. intros _ [Hp Hnames]%Forall_cons.
  destruct names as [|q names]; [by apply split_slash_name|].
  change (join_slash (p :: q :: names)) with (p +:+ "/" +:+ join_slash (q :: names)).
  by rewrite split_slash_app, (split_slash_name _ Hp), IH.
Qed.

Lemma od_get_unique gp h x c :
  (∀ p c c', c ∈ children h p → c' ∈ children h p → gp c = gp c' → c = c') →
  c ∈ children h x → od_get (gp c) (nodemap gp h x) = Some c.
Proof.
  intros Huniq Hc. rewrite od_get_nodemap.
  destruct (last (filter (λ c', gp c' = gp c) (children h x))) as [c'|] eqn:Hl.
  - apply last_Some_elem_of, list_elem_of_filter in Hl as [Hname Hc'].
    f_equal. by apply (Huniq x).
  - apply last_None in Hl.
    assert (c ∈ filter (λ c', gp c' = gp c) (children h x)) as Hin
      by by apply list_elem_of_filter.
    rewrite Hl in Hin. by apply elem_of_nil in Hin.
Qed.

Lemma get_pure_chain gp h :
  registered h →
  (∀ p c c', c ∈ children h p → c' ∈ children h p → gp c = gp c' → c = c') →
  ∀ l x,
    (∀ i a b, (x :: l) !! i = Some a → (x :: l) !! S i = Some b →
              parent h b = Some a) →
    Forall (λ c, is_here (gp c) = false ∧ String.eqb (gp c) ".." = false) l →
    get_pure gp h (Some x) (gp <$> l) = Returns (last (x :: l)).
Proof.
  intros Hreg Huniq. induction l as [|c l IH]; intros x Hlinks Hok; [done|].
  apply Forall_cons in Hok as [[Hhere Hup] Hok].
  rewrite fmap_cons. simpl get_pure. rewrite Hup, Hhere.
  assert (parent h c = Some x) as Hc by by apply (Hlinks 0).
  rewrite (od_get_unique gp h x c Huniq) by by apply Hreg.
  rewrite last_cons_cons. apply IH; [|done].
  intros i a b Ha Hb. by apply (Hlinks (S i)).
Qed.

(** X20.  The path that [Node.__repr__] shows resolves to the node: on
    a heap that satisfies the invariants, where the children of one
    node have different names and the names on the path of [m] are free
    of separators and are not [""], ["."] or [".."], [get(n, s)] with
    [s] the path string of [m] returns [m], from every node [n] of the
    tree of [m]. *)
Theorem get_path_string (gp : node → string) (n m : node) (h : heap) :
  wf h →
  (∀ p c c', c ∈ children h p → c' ∈ children h p → gp c = gp c' → c = c') →
  (∀ fuel pm x, _path fuel h m = Some pm → x ∈ pm →
     contains_char "/" (gp x) = false ∧ is_here (gp x) = false ∧
     String.eqb (gp x) ".." = false) →
  (∀ fuel pn pm, _path fuel h n = Some pn → _path fuel h m = Some pm →
     head pn = head pm) →
  ∃ fuel0 s, ∀ fuel, fuel0 ≤ fuel →
    path_string gp fuel h m = Some s ∧
    get gp fuel n s h = (Returns (Some m), h).
Proof.
  intros [Hac Hreg Hown Honce] Huniq Hnames Htree.
  destruct (Hac m) as [pm Hpm]. destruct (Hac n) as [pn Hpn].
  pose proof (Path_path _ _ _ Hpm) as Hm. pose proof (Path_path _ _ _ Hpn) as Hn.
  exists (length pm + length pn), (join_slash (EmptyString :: (gp <$> pm))).
  intros fuel Hfuel.
  split; [unfold path_string; by rewrite Hm by lia|].
  specialize (Htree fuel pn pm (Hn fuel ltac:(lia)) (Hm fuel ltac:(lia))).
  specialize (Hnames fuel pm).
  destruct (root_eq h n pn fuel Hpn ltac:(lia)) as (r & pn' & -> & Hroot).
  destruct pm as [|r' pm']; [done|]. injection Htree as <-.
  assert (Forall (λ s, contains_char "/" s = false) (gp <$> r :: pm')) as Hslash.
  { apply Forall_fmap, Forall_forall. intros x Hx.
    by destruct (Hnames x (Hm fuel ltac:(lia)) Hx). }
  destruct (Hnames r (Hm fuel ltac:(lia)) ltac:(left)) as (_ & Hhere & _).
  change (join_slash (EmptyString :: (gp <$> r :: pm')))
    with (String "/" (join_slash (gp <$> r :: pm'))).
  unfold get, __start.
  change (startswith_slash (String "/" (join_slash (gp <$> r :: pm')))) with true.
  change (split_slash (String "/" (join_slash (gp <$> r :: pm'))))
    with (EmptyString :: split_slash (join_slash (gp <$> r :: pm'))).
  rewrite split_slash_join by done.
  cbv beta iota. unfold mbind, M_bind. unfold bind at 1. unfold bind at 1.
  rewrite Hroot. simpl.
  munfold. simpl.
  rewrite bool_decide_eq_false_2 by (intros Hr; by rewrite Hr in Hhere).
  rewrite bool_decide_eq_false_2 by (intros Hr; by apply Hr).
  rewrite get_loop_eq. f_equal.
  assert (get_pure gp h (Some r) (gp <$> pm') = Returns (Some m)) as Hget; [|exact Hget].
  rewrite (get_pure_chain gp h Hreg Huniq pm' r).
  - f_equal. by apply Path_last in Hpm.
  - apply (Path_links _ _ _ Hpm).
  - apply Forall_forall. intros x Hx.
    destruct (Hnames x (Hm fuel ltac:(lia)) ltac:(by right)) as (_ & ? & ?). done.
Qed.

Lemma sibling_names_check (gp : node → string) h :
  forallb (λ pl : node * list node, bool_decide (NoDup (gp <$> pl.2)))
          (map_to_list (__children h)) = true →
  ∀ p c c', c ∈ children h p → c' ∈ children h p → gp c = gp c' → c = c'.
Proof.
  intros Hc p c c' Hin Hin' Heq. unfold children, _children in Hin, Hin'.
  destruct (__children h !! p) as [l|] eqn:Hl; simpl in Hin, Hin';
    [|by apply elem_of_nil in Hin].
  apply elem_of_map_to_list in Hl.
  pose proof (forallb_elem_of _ _ _ Hc Hl) as Hs. simpl in Hs.
  apply bool_decide_eq_true in Hs.
  apply list_elem_of_lookup in Hin as [i Hi], Hin' as [j Hj].
  assert (i = j) as ->.
  { apply (NoDup_lookup _ i j (gp c) Hs).
    - by rewrite list_lookup_fmap, Hi.
    - by rewrite list_lookup_fmap, Hj, Heq. }
  congruence.
Qed.

Lemma get_path_string_witness :
  wf resolver_tree ∧
  ∃ fuel0 s, ∀ fuel, fuel0 ≤ fuel →
    path_string resolver_name fuel resolver_tree 4 = Some s ∧
    get resolver_name fuel 6 s resolver_tree = (Returns (Some 4), resolver_tree).
Proof.
  assert (wf resolver_tree) as Hwf by (apply wf_check_sound; vm_compute; reflexivity).
  assert (Path resolver_tree 4 [1; 2; 4]) as H4
    by (apply (_path_Path 3); vm_compute; reflexivity).
  assert (Path resolver_tree 6 [1; 5; 6]) as H6
    by (apply (_path_Path 3); vm_compute; reflexivity).
  assert (∀ p c c', c ∈ children resolver_tree p → c' ∈ children resolver_tree p →
                    resolver_name c = resolver_name c' → c = c') as Huniq
    by (apply sibling_names_check; vm_compute; reflexivity).
  assert (∀ fuel pm x, _path fuel resolver_tree 4 = Some pm → x ∈ pm →
            contains_char "/" (resolver_name x) = false ∧
            is_here (resolver_name x) = false ∧
            String.eqb (resolver_name x) ".." = false) as Hnames.
  { intros fuel pm x Hpm Hx. apply _path_Path in Hpm.
    rewrite (Path_det _ _ _ _ Hpm H4) in Hx.
    repeat (apply elem_of_cons in Hx as [->|Hx]; [by vm_compute|]).
    by apply elem_of_nil in Hx. }
  assert (∀ fuel pn pm, _path fuel resolver_tree 6 = Some pn →
            _path fuel resolver_tree 4 = Some pm → head pn = head pm) as Htree.
  { intros fuel pn pm Hpn Hpm. apply _path_Path in Hpn, Hpm.
    by rewrite (Path_det _ _ _ _ Hpn H6), (Path_det _ _ _ _ Hpm H4). }
  split; [exact Hwf|].
  exact (get_path_string resolver_name 6 4 resolver_tree Hwf Huniq Hnames Htree).
Defined.

(** ** Resolver: a wildcard as the only segment *)

Lemma od_set_fresh k v (d : list (string * node)) :
  k ∉ d.*1 → od_set k v d = d ++ [(k, v)].
Proof.
  induction d as [|[k' v'] d IH]; [done|]. simpl.
  intros Hk. apply not_elem_of_cons in Hk as [Hne Hk].
  destruct (String.eqb k' k) eqn:Heq; [by apply String.eqb_eq in Heq|].
  by rewrite IH.
Qed.

Lemma OrderedDict_unique items : NoDup items.*1 → OrderedDict items = items.
Proof.
  unfold OrderedDict.
  assert (∀ d, NoDup (d ++ items).*1 →
               foldl (λ d kv, od_set kv.1 kv.2 d) d items = d ++ items) as Hgen.
  { induction items as [|[k v] items IH]; intros d Hd; simpl.
    { by rewrite app_nil_r. }
    rewrite od_set_fresh.
    - rewrite IH; rewrite <- app_assoc; done.
    - rewrite fmap_app in Hd. apply NoDup_app in Hd as (_ & Hd & _).
      intros Hk. apply (Hd k Hk). rewrite fmap_cons. left. }
  intros Hnd. by apply (Hgen []).
Qed.

Lemma glob_loop_pure_last pc part items matches :
  glob_loop_pure pc part [] items matches
  = Returns (matches ++
             (filter (λ kc : string * node,
                        re_match (__translate part) kc.1 = true) items).*2).
Proof.
  revert matches. induction items as [|[k v] items IH]; intros matches; simpl.
  { by rewrite app_nil_r. }
  rewrite filter_cons. simpl.
  destruct (re_match (__translate part) k) eqn:Hm.
  - rewrite decide_True by done. rewrite IH, fmap_cons, <- app_assoc. done.
  - rewrite decide_False by done. apply IH.
Qed.

Lemma filter_names (gp : node → string) (f : string → bool) cs :
  (filter (λ kc : string * node, f kc.1 = true) ((λ c, (gp c, c)) <$> cs)).*2
  = filter (λ c, f (gp c) = true) cs.
Proof.
  induction cs as [|c cs IH]; [done|].
  rewrite fmap_cons, !filter_cons. simpl.
  destruct (decide (f (gp c) = true)); [rewrite fmap_cons|]; by rewrite IH.
Qed.

(** X21.  A path that is one wildcard segment selects among the
    children: when the children of [n] have different names,
    [glob(n, part)] returns, in the order of [n.children], exactly the
    children whose name the pattern matches; it raises nothing, also
    when no child matches. *)
Theorem glob_wildcard_children (gp : node → string) (fuel : nat) (n : node)
    (part : string) (h : heap) :
  cache_ok h → __is_wildcard part = true → contains_char "/" part = false →
  NoDup (gp <$> children h n) →
  ∃ l, result (glob gp fuel n part) h = Returns l ∧
       l `sublist_of` children h n ∧
       ∀ c, c ∈ l ↔ c ∈ children h n ∧ wild_match part (gp c).
Proof.
  intros Hok Hwild Hslash Hnd.
  exists (filter (λ c, re_match (__translate part) (gp c) = true) (children h n)).
  split; [|split].
  - unfold result, glob, __start. rewrite (name_relative _ Hslash).
    rewrite (split_slash_name _ Hslash). munfold.
    destruct (__glob_eq gp [part] (Some n) h Hok) as (h' & -> & _). simpl.
    destruct (wildcard_not_relative _ Hwild) as [-> ->].
    rewrite glob_loop_pure_last, Hwild, andb_false_r. simpl.
    change (nodemap gp (forget_cache h) n) with (nodemap gp h n).
    unfold nodemap. rewrite OrderedDict_unique.
    + by rewrite (filter_names gp (re_match (__translate part))).
    + by rewrite <- list_fmap_compose.
  - apply sublist_filter.
  - intros c. rewrite list_elem_of_filter.
    split; intros [H1 H2].
    + split; [done|]. by apply re_match_wild_match.
    + split; [|done]. by apply wild_match_re_match.
Qed.

Lemma glob_wildcard_children_witness :
  cache_ok resolver_tree ∧ __is_wildcard "s*1" = true ∧
  contains_char "/" "s*1" = false ∧
  NoDup (resolver_name <$> children resolver_tree 1) ∧
  ∃ l, result (glob resolver_name 6 1 "s*1") resolver_tree = Returns l ∧
       l `sublist_of` children resolver_tree 1 ∧
       ∀ c, c ∈ l ↔ c ∈ children resolver_tree 1 ∧ wild_match "s*1" (resolver_name c).
Proof.
  assert (cache_ok resolver_tree) as Hok by (by apply cache_ok_empty).
  assert (NoDup (resolver_name <$> children resolver_tree 1)) as Hnd
    by (apply (bool_decide_unpack _); vm_compute; exact I).
  split; [exact Hok|]. split; [reflexivity|]. split; [reflexivity|].
  split; [exact Hnd|].
  exact (glob_wildcard_children resolver_name 6 1 "s*1" resolver_tree
           Hok eq_refl eq_refl Hnd).
Defined.

(** ** Resolver: absolute paths *)

(** X22.  An absolute path is resolved from the root: on a heap whose
    parent chains end, [get] and [glob] with a path that starts with
    the separator give the same outcome from every node of one tree. *)
Theorem absolute_path_from_any_node (gp : node → string) (n n' : node)
    (pth : string) (h : heap) :
  acyclic h → startswith_slash pth = true →
  (∀ fuel pn pn', _path fuel h n = Some pn → _path fuel h n' = Some pn' →
     head pn = head pn') →
  ∃ fuel0, ∀ fuel, fuel0 ≤ fuel →
    get gp fuel n pth h = get gp fuel n' pth h ∧
    glob gp fuel n pth h = glob gp fuel n' pth h.
Proof.
  intros Hac Habs Htree.
  destruct (Hac n) as [pn Hpn]. destruct (Hac n') as [pn' Hpn'].
  exists (length pn + length pn'). intros fuel Hfuel.
  specialize (Htree fuel pn pn' (Path_path _ _ _ Hpn fuel ltac:(lia))
                (Path_path _ _ _ Hpn' fuel ltac:(lia))).
  destruct (root_eq h n pn fuel Hpn ltac:(lia)) as (r & l & -> & Hroot).
  destruct (root_eq h n' pn' fuel Hpn' ltac:(lia)) as (r' & l' & -> & Hroot').
  injection Htree as <-.
  unfold get, glob, __start. rewrite Habs.
  unfold mbind, M_bind, bind. by rewrite Hroot, Hroot'.
Qed.

Lemma absolute_path_from_any_node_witness :
  acyclic resolver_tree ∧ startswith_slash "/top/*" = true ∧
  ∃ fuel0, ∀ fuel, fuel0 ≤ fuel →
    get resolver_name fuel 3 "/top/*" resolver_tree
    = get resolver_name fuel 6 "/top/*" resolver_tree ∧
    glob resolver_name fuel 3 "/top/*" resolver_tree
    = glob resolver_name fuel 6 "/top/*" resolver_tree.
Proof.
  assert (acyclic resolver_tree) as Hac
    by (apply acyclic_check_sound; vm_compute; reflexivity).
  assert (Path resolver_tree 3 [1; 2; 3]) as H3
    by (apply (_path_Path 3); vm_compute; reflexivity).
  assert (Path resolver_tree 6 [1; 5; 6]) as H6
    by (apply (_path_Path 3); vm_compute; reflexivity).
  assert (∀ fuel pn pn', _path fuel resolver_tree 3 = Some pn →
            _path fuel resolver_tree 6 = Some pn' → head pn = head pn') as Htree.
  { intros fuel pn pn' Hpn Hpn'. apply _path_Path in Hpn, Hpn'.
    by rewrite (Path_det _ _ _ _ Hpn H3), (Path_det _ _ _ _ Hpn' H6). }
  split; [exact Hac|]. split; [reflexivity|].
  exact (absolute_path_from_any_node resolver_name 3 6 "/top/*" resolver_tree
           Hac eq_refl Htree).
Defined.

(** ** Resolver: the cache is transparent *)

Lemma __start_forget_cache gp fuel n pth h :
  (__start gp fuel n pth (forget_cache h)).1 = (__start gp fuel n pth h).1.
Proof.
  unfold __start. destruct (startswith_slash pth); [|done].
  unfold root, path, first_item, read; munfold; simpl.
  change (parent (forget_cache h) n) with (parent h n).
  destruct (parent h n) as [p|]; simpl.
  - rewrite (_path_ext fuel (forget_cache h) h n eq_refl).
    destruct (_path fuel h n) as [[|r l]|]; simpl; try done.
    destruct (tail (split_slash pth)) as [|p0 parts0]; simpl; [done|].
    by repeat case_bool_decide.
  - destruct (tail (split_slash pth)) as [|p0 parts0]; simpl; [done|].
    by repeat case_bool_decide.
Qed.

(** X23.  The pattern cache is transparent: when it holds only
    translations, [glob] gives the outcome it gives with an empty
    cache, changes nothing but the cache, and leaves a cache that holds
    only translations. *)
Theorem glob_cache_transparent (gp : node → string) (fuel : nat) (n : node)
    (pth : string) (h : heap) :
  cache_ok h →
  result (glob gp fuel n pth) h = result (glob gp fuel n pth) (forget_cache h) ∧
  forget_cache (run (glob gp fuel n pth) h) = forget_cache h ∧
  cache_ok (run (glob gp fuel n pth) h).
Proof.
  intros Hok.
  assert (cache_ok (forget_cache h)) as Hok0 by by apply cache_ok_empty.
  pose proof (__start_forget_cache gp fuel n pth h) as Hstart0.
  destruct (__start_cases gp fuel n pth h) as (o & Hstart & _).
  destruct (__start_cases gp fuel n pth (forget_cache h)) as (o0 & Hstart' & _).
  rewrite Hstart, Hstart' in Hstart0. simpl in Hstart0. subst o0.
  unfold result, run, glob, mbind, M_bind, bind. rewrite Hstart, Hstart'.
  destruct o as [[n' parts]|e|]; [|done|done].
  destruct (__glob_eq gp parts (Some n') h Hok) as (h' & -> & Hh' & Hok').
  destruct (__glob_eq gp parts (Some n') _ Hok0) as (h0' & -> & _).
  done.
Qed.

Lemma glob_cache_transparent_witness :
  cache_ok (run (glob resolver_name 6 1 "*/sub?") resolver_tree) ∧
  let h := run (glob resolver_name 6 1 "*/sub?") resolver_tree in
  result (glob resolver_name 6 1 "sub0/sub?") h
  = result (glob resolver_name 6 1 "sub0/sub?") (forget_cache h) ∧
  forget_cache (run (glob resolver_name 6 1 "sub0/sub?") h) = forget_cache h ∧
  cache_ok (run (glob resolver_name 6 1 "sub0/sub?") h).
Proof.
  assert (cache_ok (run (glob resolver_name 6 1 "*/sub?") resolver_tree)) as Hok
    by (apply (__glob_cache_ok resolver_name (Some 1) ["*"; "sub?"]%string);
        by apply cache_ok_empty).
  split; [exact Hok|].
  exact (glob_cache_transparent resolver_name 6 1 "sub0/sub?" _ Hok).
Defined.

(** The four styles of the module satisfy the assertion of
    [AbstractStyle]. *)
Example styles_construct :
  is_Some AsciiStyle ∧ is_Some ContStyle ∧ is_Some ContRoundStyle ∧
  is_Some DoubleStyle.
Proof. repeat split; by eexists. Qed.
